(** * exporter-merger: the fetch / merge / deduplicate / serialize pipeline

    A shallow embedding of [cmd/handler.go] (type [Handler], its method
    [Merge], and the helpers [deduplicateMetricFamily] and [labelSignature])
    together with the properties of the pipeline.

    Conventions.
    - Go strings are byte sequences; they are modelled by [string], whose
      characters are 8-bit [ascii] values.  [sort.Strings] orders them
      bytewise, which is [String.compare].
    - Go maps are modelled by [gmap string _]; a [nil] map, which the code
      ranges over without effect, is [None] of an [option (gmap _ _)].
    - The protobuf messages of [client_model] are records; their optional
      (pointer) fields are [option]s and the generated getters return the
      zero value on [None].
    - The sample sub-messages of a [Metric] (gauge, counter, summary,
      histogram, untyped, timestamp) are never inspected by this program;
      they are carried as one field of an arbitrary type [Sample]. *)

From Stdlib Require Import ZArith Ascii.
From Stdlib Require String OrderedTypeEx.
From stdpp Require Import gmap strings list fin_maps sorting.

Local Open Scope Z_scope.
#[local] Set Warnings "-clear-no-such-hyp".

(* ===================================================================== *)
(** * Data model (client_model messages) *)
(* ===================================================================== *)

Inductive MetricType :=
  | COUNTER | GAUGE | SUMMARY | UNTYPED | HISTOGRAM | GAUGE_HISTOGRAM.

(** [prom.LabelPair]: two optional strings. *)
Record LabelPair := mkLabelPair {
  lp_Name : option string;
  lp_Value : option string
}.

Definition LabelPair_GetName (l : LabelPair) : string := default "" (lp_Name l).
Definition LabelPair_GetValue (l : LabelPair) : string := default "" (lp_Value l).

Section model.
Context {Sample : Type}.

(** [prom.Metric]: the label pairs, in payload order, and the samples. *)
Record Metric := mkMetric {
  m_Label : list LabelPair;
  m_Sample : Sample
}.

Definition Metric_GetLabel (m : Metric) : list LabelPair := m_Label m.

(** [prom.MetricFamily]. *)
Record MetricFamily := mkMetricFamily {
  mf_Name : option string;
  mf_Help : option string;
  mf_Type : option MetricType;
  mf_Metric : list Metric
}.

Definition MetricFamily_GetName (mf : MetricFamily) : string :=
  default "" (mf_Name mf).

(** [mf.Metric = ms]: assignment to the field, the rest untouched. *)
Definition set_Metric (mf : MetricFamily) (ms : list Metric) : MetricFamily :=
  {| mf_Name := mf_Name mf; mf_Help := mf_Help mf;
     mf_Type := mf_Type mf; mf_Metric := ms |}.
End model.

Arguments Metric : clear implicits.
Arguments MetricFamily : clear implicits.

(* ===================================================================== *)
(** * [sort.Strings] and [strings.Join] *)
(* ===================================================================== *)

(** Bytewise order on strings, as Go's [<=] and [<] on [string]. *)
Definition string_le (s1 s2 : string) : Prop := String.leb s1 s2 = true.
Definition string_lt (s1 s2 : string) : Prop := String.ltb s1 s2 = true.

#[global] Instance string_le_dec : RelDecision string_le.
Proof. intros s1 s2. unfold string_le. apply _. Defined.

#[global] Instance string_lt_dec : RelDecision string_lt.
Proof. intros s1 s2. unfold string_lt. apply _. Defined.

(** [sort.Strings(a)]: sorts in increasing order.  Go's algorithm is not
    stable, which cannot be observed on strings: the sorted permutation of a
    list of strings is unique ([sort_Strings_unique] below). *)
Definition sort_Strings (a : list string) : list string :=
  merge_sort string_le a.

(** [strings.Join(elems, sep)]. *)
Definition strings_Join (elems : list string) (sep : string) : string :=
  String.concat sep elems.

(* ===================================================================== *)
(** * [labelSignature] and [deduplicateMetricFamily] *)
(* ===================================================================== *)

(** [fmt.Sprintf("%s=%s", label.GetName(), label.GetValue())] *)
Definition label_part (label : LabelPair) : string :=
  LabelPair_GetName label +:+ "=" +:+ LabelPair_GetValue label.

(** The loop appends one part per label, in order: a [map]. *)
Definition labelSignature (labels : list LabelPair) : string :=
  let parts := label_part <$> labels in
  strings_Join (sort_Strings parts) ",".

Section dedup.
Context {Sample : Type}.

(** [seen[signature]] on a [map[string]bool]: [false] when absent. *)
Definition seen_get (seen : gmap string bool) (signature : string) : bool :=
  default false (seen !! signature).

(** One iteration of the loop over [mf.Metric]; the loop state is
    [(seen, deduplicated)]. *)
Definition dedup_step (st : gmap string bool * list (Metric Sample))
    (m : Metric Sample) : gmap string bool * list (Metric Sample) :=
  let signature := labelSignature (Metric_GetLabel m) in
  if seen_get st.1 signature then st
  else (<[signature := true]> st.1, st.2 ++ [m]).

Definition deduplicateMetricFamily (mf : MetricFamily Sample)
    : MetricFamily Sample :=
  let st := foldl dedup_step (∅, []) (mf_Metric mf) in
  set_Metric mf st.2.

End dedup.

(* ===================================================================== *)
(** * The Family Merger: the loops of [Merge] over [responses] *)
(* ===================================================================== *)

Section merge.
Context {Sample : Type}.

(** The body of [for n, mf := range part]: [mfs] maps names to pointers, so
    [mfo.Metric = append(mfo.Metric, mf.Metric...)] updates the family stored
    under [n].  The families of a part are fresh objects of one parse and a
    part is ranged over once, so no other name aliases the updated object. *)
Definition merge_entry (mfs : gmap string (MetricFamily Sample))
    (e : string * MetricFamily Sample) : gmap string (MetricFamily Sample) :=
  match mfs !! e.1 with
  | Some mfo => <[e.1 := set_Metric mfo (mf_Metric mfo ++ mf_Metric e.2)]> mfs
  | None => <[e.1 := e.2]> mfs
  end.

(** What [merge_entry] stores under the name of an incoming family. *)
Definition joined (o : option (MetricFamily Sample)) (mf : MetricFamily Sample)
    : MetricFamily Sample :=
  match o with
  | Some mfo => set_Metric mfo (mf_Metric mfo ++ mf_Metric mf)
  | None => mf
  end.

(** Ranging over the entries of a part in the order [entries]. *)
Definition merge_range (mfs : gmap string (MetricFamily Sample))
    (entries : list (string * MetricFamily Sample))
    : gmap string (MetricFamily Sample) :=
  foldl merge_entry mfs entries.

(** [for n, mf := range part]; Go leaves the iteration order of a map
    unspecified, [map_to_list] is one such order and [merge_range_perm] shows
    that every other gives the same result.  A [nil] map has no entries. *)
Definition merge_response (mfs : gmap string (MetricFamily Sample))
    (part : option (gmap string (MetricFamily Sample)))
    : gmap string (MetricFamily Sample) :=
  match part with
  | None => mfs
  | Some part => merge_range mfs (map_to_list part)
  end.

(** [for _, part := range responses], from [mfs = {}]. *)
Definition merge_responses
    (responses : list (option (gmap string (MetricFamily Sample))))
    : gmap string (MetricFamily Sample) :=
  foldl merge_response ∅ responses.

(** [for n, mf := range mfs { mfs[n] = deduplicateMetricFamily(mf) }]:
    every key is assigned once, at its own visit, in the order [entries]
    ([dedup_range_perm]: the order does not matter). *)
Definition dedup_range (mfs : gmap string (MetricFamily Sample))
    (entries : list (string * MetricFamily Sample))
    : gmap string (MetricFamily Sample) :=
  foldl (fun acc e => <[e.1 := deduplicateMetricFamily e.2]> acc) mfs entries.

Definition deduplicate_all (mfs : gmap string (MetricFamily Sample))
    : gmap string (MetricFamily Sample) :=
  dedup_range mfs (map_to_list mfs).

(** [for n := range mfs { names = append(names, n) }; sort.Strings(names)] *)
Definition sorted_names (mfs : gmap string (MetricFamily Sample)) : list string :=
  sort_Strings ((map_to_list mfs).*1).

(** The value of [mfs[n]] for a name that is not a key is the [nil] pointer,
    whose getters return zero values. *)
#[global] Instance MetricFamily_inhabited : Inhabited (MetricFamily Sample) :=
  populate (mkMetricFamily None None None []).

End merge.

(* ===================================================================== *)
(** * [Handler], the fan-out and the serializer *)
(* ===================================================================== *)

Record Handler := mkHandler {
  Exporters : list string;
  ExportersHTTPTimeout : Z;
  Deduplicate : bool
}.

(** Error-level log entries (logrus); debug messages are not recorded. *)
Inductive LogEntry :=
  | LogGetFailed (u err : string)
  | LogParseFailed (u err : string)
  | LogEncodeFailed (err : string).

Section pipeline.
Context {Sample W : Type}.

(** What one fetch task comes back with: [httpClient.Get] failed, the body
    did not parse, or the parsed families. *)
Inductive FetchOutcome :=
  | GetFailed (err : string)
  | ParseFailed (err : string)
  | Parsed (part : gmap string (MetricFamily Sample)).

(** The effects of [Merge]: the writer [w] it is given, and the log.
    [w_encoded] is a ghost record of the arguments of the calls to
    [enc.Encode], in call order. *)
Record World := mkWorld {
  w_out : W;
  w_encoded : list (MetricFamily Sample);
  w_log : list LogEntry
}.

(** [enc.Encode(mf)] on a writer in state [w]: the writer afterwards, and the
    error if any.  The text encoder and the writer are the caller's. *)
Context (Encode : W -> MetricFamily Sample -> W * option string).

(** State monad over [World]. *)
Definition M (A : Type) : Type := World -> A * World.

#[global] Instance M_ret : MRet M := fun A x w => (x, w).
#[global] Instance M_bind : MBind M :=
  fun A B f m w => let r := m w in f r.1 r.2.

Definition log_Error (e : LogEntry) : M unit := fun w =>
  (tt, {| w_out := w_out w; w_encoded := w_encoded w; w_log := w_log w ++ [e] |}).

Definition enc_Encode (mf : MetricFamily Sample) : M (option string) := fun w =>
  let r := Encode (w_out w) mf in
  (r.2, {| w_out := r.1; w_encoded := w_encoded w ++ [mf]; w_log := w_log w |}).

(** The end of one goroutine, for the url [t.1] with outcome [t.2]: an error
    is logged, or the part is appended to [responses] under the mutex. *)
Definition task (responses : list (option (gmap string (MetricFamily Sample))))
    (t : string * FetchOutcome)
    : M (list (option (gmap string (MetricFamily Sample)))) :=
  match t.2 with
  | GetFailed err => _ ← log_Error (LogGetFailed t.1 err); mret responses
  | ParseFailed err => _ ← log_Error (LogParseFailed t.1 err); mret responses
  | Parsed part => mret (responses ++ [Some part])
  end.

(** The goroutines end one after the other in the order [arrivals];
    [wg.Wait()] returns when all have. *)
Fixpoint fanout (responses : list (option (gmap string (MetricFamily Sample))))
    (arrivals : list (string * FetchOutcome))
    : M (list (option (gmap string (MetricFamily Sample)))) :=
  match arrivals with
  | [] => mret responses
  | t :: ts => responses ← task responses t; fanout responses ts
  end.

(** The same as a transition system: the state holds the indices of the
    goroutines that have not ended yet; any of them may end next. *)
Record FanState := mkFanState {
  fs_running : gset nat;
  fs_responses : list (option (gmap string (MetricFamily Sample)));
  fs_world : World
}.

Inductive fan_step (ts : list (string * FetchOutcome)) : FanState -> FanState -> Prop :=
  | fan_step_end (i : nat) (t : string * FetchOutcome) (st : FanState) :
      i ∈ fs_running st ->
      ts !! i = Some t ->
      fan_step ts st
        {| fs_running := fs_running st ∖ {[i]};
           fs_responses := (task (fs_responses st) t (fs_world st)).1;
           fs_world := (task (fs_responses st) t (fs_world st)).2 |}.

(** [for _, n := range names { err := enc.Encode(mfs[n]); ... }] *)
Fixpoint encode_loop (mfs : gmap string (MetricFamily Sample))
    (names : list string) : M unit :=
  match names with
  | [] => mret tt
  | n :: names =>
      err ← enc_Encode (mfs !!! n);
      match err with
      | Some e => log_Error (LogEncodeFailed e)
      | None => encode_loop mfs names
      end
  end.

(** The statements of [Merge] after the fetches are started, for tasks that
    end in the order [arrivals]. *)
Definition Merge_arrivals (deduplicate : bool)
    (arrivals : list (string * FetchOutcome)) : M unit :=
  responses ← fanout (replicate 1024 None) arrivals;
  let mfs := merge_responses responses in
  let mfs := if deduplicate then deduplicate_all mfs else mfs in
  encode_loop mfs (sorted_names mfs).

(** The tasks in the order they are started: the [i]-th request goes to
    [Exporters !! i] and comes back with [net i url]. *)
Definition tasks (h : Handler) (net : nat -> string -> FetchOutcome)
    : list (string * FetchOutcome) :=
  imap (fun i u => (u, net i u)) (Exporters h).

(** The tasks in the order [sched] of their ends; [sched] lists task
    indices. *)
Definition arrivals_of (sched : list nat)
    (ts : list (string * FetchOutcome)) : list (string * FetchOutcome) :=
  omap (fun i => ts !! i) sched.

(** [Handler.Merge], for a network [net] and a schedule [sched] of the
    goroutines.  It returns no value. *)
Definition Merge (h : Handler) (net : nat -> string -> FetchOutcome)
    (sched : list nat) : M unit :=
  Merge_arrivals (Deduplicate h) (arrivals_of sched (tasks h net)).

End pipeline.

Arguments FetchOutcome : clear implicits.
Arguments World : clear implicits.
Arguments FanState : clear implicits.

(* ===================================================================== *)
(** * The HTTP exchange of one task *)
(* ===================================================================== *)

Section http.
Context {Sample W : Type}.
Context (Encode : W -> MetricFamily Sample -> W * option string).

(** What [tp.TextToMetricFamilies(resp.Body)] returns on a body: an error,
    or the families by name.  The text parser is a library; a body is
    given by what the parser makes of it. *)
Inductive BodyParse :=
  | Malformed (err : string)
  | Families (part : gmap string (MetricFamily Sample)).

(** What [httpClient.Get(u)] returns: an error, or a response with its
    status code and its body. *)
Inductive GetResult :=
  | GetError (err : string)
  | Response (StatusCode : Z) (body : BodyParse).

(** The statements of the goroutine from [httpClient.Get] to the parse:
    [err != nil] is the only test on the result of [Get]; the body of any
    response is parsed, [resp.StatusCode] is not read. *)
Definition outcome_of (g : GetResult) : FetchOutcome Sample :=
  match g with
  | GetError err => GetFailed err
  | Response _ (Malformed err) => ParseFailed err
  | Response _ (Families part) => Parsed part
  end.

(** [Handler.Merge] when the [i]-th request, to [u], is answered with
    [gets i u]. *)
Definition Merge_http (h : Handler) (gets : nat -> string -> GetResult)
    (sched : list nat) : M unit :=
  Merge Encode h (fun i u => outcome_of (gets i u)) sched.

End http.

Arguments BodyParse : clear implicits.
Arguments GetResult : clear implicits.

(* ===================================================================== *)
(** * The fetch timeout *)
(* ===================================================================== *)

(** [time.Second], in nanoseconds, and arithmetic on [int64]. *)
Definition time_Second : Z := 1000000000.

Definition wrap64 (z : Z) : Z := (z + 2 ^ 63) mod 2 ^ 64 - 2 ^ 63.

(** [httpClientTimeout := time.Second * time.Duration(h.ExportersHTTPTimeout)] *)
Definition httpClientTimeout (h : Handler) : Z :=
  wrap64 (time_Second * ExportersHTTPTimeout h).

(** [http.Client{Timeout: d}] of the Go library sets a deadline for a request
    only when [d > 0] ([Client.deadline]); a zero [Timeout] means no
    timeout. *)
Definition Client_deadline (d : Z) : option Z :=
  if 0 <? d then Some d else None.

Section timing.
Context {Sample W : Type}.
Context (Encode : W -> MetricFamily Sample -> W * option string).

(** The network is not part of the program; a remote endpoint either
    completes the exchange with the outcome [o], the response headers (or the
    connection error) being there [headers] nanoseconds after the request and
    the whole body [after] nanoseconds after it, or never answers. *)
Inductive Remote :=
  | Replies (headers after : Z) (o : FetchOutcome Sample)
  | Hangs.

(** The outcome of a fetch that is cut off by the deadline: before the
    headers are there [httpClient.Get] returns the error; after them the
    read of the body fails, which the parser reports. *)
Definition cut_off (headers d : Z) (o : FetchOutcome Sample) : FetchOutcome Sample :=
  match o with
  | GetFailed _ => GetFailed "Client.Timeout exceeded"
  | _ =>
      if headers <? d then ParseFailed "context deadline exceeded"
      else GetFailed "Client.Timeout exceeded"
  end.

(** One fetch with [http.Client{Timeout: timeout}]: the time at which the
    task gets its outcome and the outcome, or [None] when the call never
    returns. *)
Definition fetch (timeout : Z) (r : Remote) : option (Z * FetchOutcome Sample) :=
  match r, Client_deadline timeout with
  | Replies headers after o, None => Some (after, o)
  | Replies headers after o, Some d =>
      if after <? d then Some (after, o)
      else Some (d, cut_off headers d o)
  | Hangs, Some d => Some (d, GetFailed "Client.Timeout exceeded")
  | Hangs, None => None
  end.

(** The fetches of [h] against the endpoints [remote], one per exporter. *)
Definition fetches (h : Handler) (remote : nat -> string -> Remote)
    : list (option (Z * FetchOutcome Sample)) :=
  imap (fun i u => fetch (httpClientTimeout h) (remote i u)) (Exporters h).

(** The outcomes of the fetches that return; [Merge_timed] asks for no
    other. *)
Definition net_of (h : Handler) (remote : nat -> string -> Remote)
    (i : nat) (u : string) : FetchOutcome Sample :=
  match fetch (httpClientTimeout h) (remote i u) with
  | Some r => r.2
  | None => GetFailed "unreachable"
  end.

(** [Merge] against the endpoints [remote]: [wg.Wait()] returns only when
    every fetch has returned; [None] stands for a call that blocks forever. *)
Definition Merge_timed (h : Handler) (remote : nat -> string -> Remote)
    (sched : list nat) (w : World Sample W) : option (unit * World Sample W) :=
  if forallb (fun r => bool_decide (is_Some r)) (fetches h remote)
  then Some (Merge Encode h (net_of h remote) sched w)
  else None.

End timing.

Arguments Remote : clear implicits.

(* ===================================================================== *)
(** * The components as the specification words them *)
(* ===================================================================== *)

Section spec.
Context {Sample : Type}.

(** The canonical key of a series: the signature of its label set. *)
Definition signature_of (m : Metric Sample) : string :=
  labelSignature (Metric_GetLabel m).

(** Signature construction: insertion of a [name=value] string into a
    list that is sorted lexicographically. *)
Fixpoint insert_pair (s : string) (sorted : list string) : list string :=
  match sorted with
  | [] => [s]
  | x :: rest =>
      if String.leb s x then s :: x :: rest else x :: insert_pair s rest
  end.

(** Signature construction: the label set as [name=value] strings, sorted
    lexicographically by the whole string, joined with the separator. *)
Definition canonical_signature (labels : list LabelPair) : string :=
  let pairs :=
    (fun l => LabelPair_GetName l +:+ "=" +:+ LabelPair_GetValue l) <$> labels in
  String.concat "," (foldr insert_pair [] pairs).

(** A failed fetch, in the words of the specification: a connection
    failure, a status that is not 2xx, or a body that does not parse. *)
Definition fetch_failure (g : GetResult Sample) : bool :=
  match g with
  | GetError _ => true
  | Response status (Malformed _) => true
  | Response status (Families _) => negb ((200 <=? status) && (status <? 300))
  end.

(** Deduplicator: the series at index [i] is retained when no series before
    it in the family has an equal signature. *)
Definition retained (ms : list (Metric Sample)) (i : nat) : bool :=
  match ms !! i with
  | Some m =>
      forallb (fun m' => negb (String.eqb (signature_of m') (signature_of m)))
        (take i ms)
  | None => false
  end.

(** The retained series, in their order in the family. *)
Definition first_occurrences (ms : list (Metric Sample)) : list (Metric Sample) :=
  omap (fun i => if retained ms i then ms !! i else None) (seq 0 (length ms)).

(** Merger, one name: the first-seen family with the series lists of all the
    families of that name, concatenated in source order. *)
Definition merged_family (fams : list (MetricFamily Sample))
    : option (MetricFamily Sample) :=
  match fams with
  | [] => None
  | f :: fs => Some (set_Metric f (mf_Metric f ++ concat (mf_Metric <$> fs)))
  end.

(** Merger: a name not yet present is inserted as is; for a name already
    present the incoming series are appended to the existing family. *)
Definition Merger (parts : list (gmap string (MetricFamily Sample)))
    : gmap string (MetricFamily Sample) :=
  foldl (union_with (fun mfo mf =>
           Some (set_Metric mfo (mf_Metric mfo ++ mf_Metric mf)))) ∅ parts.

End spec.

(* ===================================================================== *)
(** * Runs of [Merge] in closed form *)
(* ===================================================================== *)

Section runs.
Context {Sample W : Type}.

Definition succeeded (t : string * FetchOutcome Sample) : bool :=
  match t.2 with Parsed _ => true | _ => false end.

(** The parts of the tasks that succeeded, in arrival order. *)
Definition parts_of (arrivals : list (string * FetchOutcome Sample))
    : list (gmap string (MetricFamily Sample)) :=
  omap (fun t => match t.2 with Parsed part => Some part | _ => None end) arrivals.

(** The log entries of the tasks that failed, in arrival order. *)
Definition fetch_errors (arrivals : list (string * FetchOutcome Sample))
    : list LogEntry :=
  omap (fun t => match t.2 with
                 | GetFailed err => Some (LogGetFailed t.1 err)
                 | ParseFailed err => Some (LogParseFailed t.1 err)
                 | Parsed _ => None
                 end) arrivals.

(** The families of name [n], one per part that has the name. *)
Definition families_named (n : string)
    (parts : list (gmap string (MetricFamily Sample)))
    : list (MetricFamily Sample) :=
  omap (fun part => part !! n) parts.

(** Every family is stored under its own name, as in the maps that the
    text parser returns. *)
Definition well_keyed (mfs : gmap string (MetricFamily Sample)) : Prop :=
  forall n mf, mfs !! n = Some mf -> MetricFamily_GetName mf = n.


(** The family set [mfs] that [Merge] hands to the encoder. *)
Definition merged_set (deduplicate : bool)
    (arrivals : list (string * FetchOutcome Sample))
    : gmap string (MetricFamily Sample) :=
  let mfs :=
    merge_responses (replicate 1024 None ++ (Some <$> parts_of arrivals)) in
  if deduplicate then deduplicate_all mfs else mfs.

Context (Encode : W -> MetricFamily Sample -> W * option string).

(** The encoder loop on the writer alone: the writer afterwards, the
    families passed to [Encode], and the error that ended the loop. *)
Fixpoint emit (out : W) (fams : list (MetricFamily Sample))
    : W * list (MetricFamily Sample) * option string :=
  match fams with
  | [] => (out, [], None)
  | mf :: fams =>
      match Encode out mf with
      | (out', Some e) => (out', [mf], Some e)
      | (out', None) =>
          let r := emit out' fams in (r.1.1, mf :: r.1.2, r.2)
      end
  end.

(** The writer after the first [i] families of [fams] were encoded, one
    after the other, from the writer [out]. *)
Definition writer_after (out : W) (fams : list (MetricFamily Sample)) (i : nat) : W :=
  foldl (fun o mf => (Encode o mf).1) out (take i fams).

Definition encode_error (err : option string) : list LogEntry :=
  match err with Some e => [LogEncodeFailed e] | None => [] end.

End runs.

(* ===================================================================== *)
(** * Labels whose names and values keep clear of the separators *)
(* ===================================================================== *)

(** Whether the byte [c] occurs in [s]. *)
Fixpoint has_char (c : ascii) (s : string) : bool :=
  match s with
  | EmptyString => false
  | String a s => Ascii.eqb a c || has_char c s
  end.

(** What [labelSignature] reads of a label: the results of its getters. *)
Definition label_key (l : LabelPair) : string * string :=
  (LabelPair_GetName l, LabelPair_GetValue l).

(** The name has no [=] and no [,], the value has no [,]: the bytes that
    [labelSignature] puts between names, values and pairs. *)
Definition plain_label (l : LabelPair) : Prop :=
  has_char "=" (LabelPair_GetName l) = false
  /\ has_char "," (LabelPair_GetName l) = false
  /\ has_char "," (LabelPair_GetValue l) = false.

(* ===================================================================== *)
(** * Test doubles for the examples *)
(* ===================================================================== *)

Definition lp (n v : string) : LabelPair := mkLabelPair (Some n) (Some v).

(** A series with an integral sample value. *)
Definition series (labels : list LabelPair) (v : Z) : Metric Z :=
  mkMetric labels v.

Definition family (name help : string) (t : MetricType) (ms : list (Metric Z))
    : MetricFamily Z :=
  mkMetricFamily (Some name) (Some help) (Some t) ms.

(** A writer that accepts [tw_room] family blocks and breaks in the middle of
    the next: of that block the name gets through, the series do not.  It
    records the name and the series of every block. *)
Record TestWriter := mkTestWriter {
  tw_blocks : list (string * list (Metric Z));
  tw_room : nat
}.

Definition test_Encode (w : TestWriter) (mf : MetricFamily Z)
    : TestWriter * option string :=
  match tw_room w with
  | O => (mkTestWriter (tw_blocks w ++ [(MetricFamily_GetName mf, [])]) O,
          Some "write: broken pipe")
  | S k => (mkTestWriter (tw_blocks w ++ [(MetricFamily_GetName mf, mf_Metric mf)]) k,
            None)
  end.

Definition test_world (room : nat) : World Z TestWriter :=
  mkWorld (mkTestWriter [] room) [] [].

(** Two sources that expose the series [up{instance="a"}], with the values
    1 and 0; the second has one more family.  A third does not answer. *)
Definition up_one : MetricFamily Z :=
  family "up" "one" GAUGE [series [lp "instance" "a"] 1].

Definition up_two : MetricFamily Z :=
  family "up" "two" GAUGE [series [lp "instance" "a"] 0].

Definition go_threads : MetricFamily Z :=
  family "go_threads" "threads" GAUGE [series [] 7].

Definition test_net (i : nat) (u : string) : FetchOutcome Z :=
  match i with
  | O => Parsed {[ "up" := up_one ]}
  | S O => Parsed {[ "up" := up_two; "go_threads" := go_threads ]}
  | _ => GetFailed "connection refused"
  end.


(** Sources that all fail. *)
Definition down_net (i : nat) (u : string) : FetchOutcome Z :=
  match i with
  | O => GetFailed "connection refused"
  | _ => ParseFailed "text format parsing error"
  end.

(** Two sources that expose [http_requests_total] with the labels
    [method="GET"] and [method="POST"]; a third is unreachable. *)
Definition requests_net (i : nat) (u : string) : FetchOutcome Z :=
  match i with
  | O => Parsed {[ "http_requests_total" :=
           family "http_requests_total" "requests" COUNTER
             [series [lp "method" "GET"] 3] ]}
  | S O => Parsed {[ "http_requests_total" :=
           family "http_requests_total" "requests" COUNTER
             [series [lp "method" "POST"] 4] ]}
  | _ => GetFailed "no route to host"
  end.

(** Sources that answer with the status [status] and a body that holds the
    family [up]. *)
Definition status_gets (status : Z) (i : nat) (u : string) : GetResult Z :=
  Response status (Families {[ "up" := up_one ]}).

(** Three series with the labels [method="GET"], [method="POST"] and again
    [method="GET"], the last with its labels in another order. *)
Definition requests_family : MetricFamily Z :=
  family "http_requests_total" "requests" COUNTER
    [series [lp "method" "GET"; lp "code" "200"] 3;
     series [lp "method" "POST"; lp "code" "200"] 4;
     series [lp "code" "200"; lp "method" "GET"] 5].

Definition test_handler (timeout : Z) (deduplicate : bool) : Handler :=
  mkHandler ["http://one/metrics"; "http://two/metrics"] timeout deduplicate.

(* ===================================================================== *)
(** * Properties: the order on strings and [sort.Strings] *)
(* ===================================================================== *)

Lemma string_compare_refl (s : string) : String.compare s s = Eq.
Proof. by apply OrderedTypeEx.String_as_OT.cmp_eq. Qed.

Lemma string_lt_compare (s1 s2 : string) :
  string_lt s1 s2 <-> String.compare s1 s2 = Lt.
Proof.
  unfold string_lt, String.ltb. destruct (String.compare s1 s2); naive_solver.
Qed.

Lemma string_le_compare (s1 s2 : string) :
  string_le s1 s2 <-> String.compare s1 s2 <> Gt.
Proof.
  unfold string_le, String.leb. destruct (String.compare s1 s2); naive_solver.
Qed.

Lemma string_le_lt_eq (s1 s2 : string) :
  string_le s1 s2 <-> string_lt s1 s2 \/ s1 = s2.
Proof.
  rewrite string_le_compare, string_lt_compare. split.
  - destruct (String.compare s1 s2) eqn:E; [|by left|done].
    right. by apply OrderedTypeEx.String_as_OT.cmp_eq.
  - intros [-> | ->]; [done|]. by rewrite string_compare_refl.
Qed.

#[global] Instance string_lt_trans : Transitive string_lt.
Proof.
  intros s1 s2 s3. rewrite !string_lt_compare.
  rewrite !(OrderedTypeEx.String_as_OT.cmp_lt).
  apply OrderedTypeEx.String_as_OT.lt_trans.
Qed.

Lemma string_lt_irrefl (s : string) : ~ string_lt s s.
Proof. rewrite string_lt_compare, string_compare_refl. done. Qed.

#[global] Instance string_le_refl : Reflexive string_le.
Proof. intros s. apply string_le_lt_eq. by right. Qed.

#[global] Instance string_le_trans : Transitive string_le.
Proof.
  intros s1 s2 s3. rewrite !string_le_lt_eq.
  intros [H12 | ->] [H23 | ->]; eauto. left. by transitivity s2.
Qed.

#[global] Instance string_le_total : Total string_le.
Proof. intros s1 s2. apply String.leb_total. Qed.

#[global] Instance string_le_antisym : AntiSymm (=) string_le.
Proof. intros s1 s2. apply String.leb_antisym. Qed.

Lemma sort_Strings_sorted (a : list string) : Sorted string_le (sort_Strings a).
Proof. apply (Sorted_merge_sort string_le). Qed.

Lemma sort_Strings_perm (a : list string) : sort_Strings a ≡ₚ a.
Proof. apply merge_sort_Permutation. Qed.

(** Every sorting algorithm computes [sort_Strings]. *)
Lemma sort_Strings_unique (a b : list string) :
  Sorted string_le b -> b ≡ₚ a -> b = sort_Strings a.
Proof.
  intros Hb Hp. apply (Sorted_unique string_le); [done|apply sort_Strings_sorted|].
  by rewrite sort_Strings_perm.
Qed.

Lemma sort_Strings_perm_eq (a b : list string) :
  a ≡ₚ b -> sort_Strings a = sort_Strings b.
Proof.
  intros Hp. apply sort_Strings_unique; [apply sort_Strings_sorted|].
  by rewrite sort_Strings_perm.
Qed.

Lemma sort_Strings_idemp (a : list string) :
  sort_Strings (sort_Strings a) = sort_Strings a.
Proof. apply sort_Strings_perm_eq, sort_Strings_perm. Qed.

(** Without repeated elements the sorted list is strictly increasing. *)
Lemma sort_Strings_strict (a : list string) :
  NoDup a -> StronglySorted string_lt (sort_Strings a).
Proof.
  intros Hnd.
  assert (NoDup (sort_Strings a)) as Hnd' by by rewrite sort_Strings_perm.
  assert (StronglySorted string_le (sort_Strings a)) as Hs
    by apply (StronglySorted_merge_sort string_le).
  induction Hs as [|x l Hl IH Hx]; [constructor|].
  apply NoDup_cons in Hnd' as [Hx' Hnd']. constructor; [by apply IH|].
  apply Forall_forall. intros y Hy.
  rewrite Forall_forall in Hx. apply Hx in Hy as Hle.
  apply string_le_lt_eq in Hle as [?| ->]; done.
Qed.

(* ===================================================================== *)
(** * Properties: [labelSignature] *)
(* ===================================================================== *)

(** The order of the labels in the payload is irrelevant. *)
Lemma labelSignature_perm (labels1 labels2 : list LabelPair) :
  labels1 ≡ₚ labels2 -> labelSignature labels1 = labelSignature labels2.
Proof.
  intros Hp. unfold labelSignature. cbn. f_equal.
  apply sort_Strings_perm_eq. by rewrite Hp.
Qed.

Lemma has_char_app (c : ascii) (s1 s2 : string) :
  has_char c (s1 +:+ s2) = has_char c s1 || has_char c s2.
Proof.
  induction s1 as [|a s1 IH]; [done|]. simpl. rewrite IH. by rewrite orb_assoc.
Qed.

Lemma has_char_head (c : ascii) (s : string) : has_char c (String c s) = true.
Proof. cbn. by rewrite Ascii.eqb_refl. Qed.

(** Two strings that are cut at their first [c] have equal pieces. *)
Lemma split_at_char (c : ascii) (x y r1 r2 : string) :
  has_char c x = false -> has_char c y = false ->
  x +:+ String c r1 = y +:+ String c r2 -> x = y /\ r1 = r2.
Proof.
  revert y. induction x as [|a x IH]; intros [|b y] Hx Hy Heq; cbn in Heq.
  - by simplify_eq.
  - simplify_eq. by rewrite has_char_head in Hy.
  - simplify_eq. by rewrite has_char_head in Hx.
  - injection Heq as -> Heq. cbn in Hx, Hy.
    apply orb_false_iff in Hx as [_ Hx]. apply orb_false_iff in Hy as [_ Hy].
    destruct (IH y Hx Hy Heq) as [-> ->]. done.
Qed.

Lemma label_part_key (l : LabelPair) :
  label_part l = (label_key l).1 +:+ String "=" (label_key l).2.
Proof. done. Qed.

Lemma label_part_comma_free (l : LabelPair) :
  plain_label l -> has_char "," (label_part l) = false.
Proof.
  intros (_ & Hn & Hv). rewrite label_part_key, has_char_app. cbn.
  by rewrite Hn, Hv.
Qed.

Lemma label_part_nonempty (l : LabelPair) : label_part l <> "".
Proof.
  rewrite label_part_key. by destruct (label_key l).1.
Qed.

Lemma strings_Join_cons_cons (x y : string) (l : list string) :
  strings_Join (x :: y :: l) "," = x +:+ String "," (strings_Join (y :: l) ",").
Proof. done. Qed.

(** [strings.Join] with [","] loses nothing on non-empty elements that hold
    no comma. *)
Lemma strings_Join_inj (l1 l2 : list string) :
  Forall (fun s => has_char "," s = false /\ s <> "") l1 ->
  Forall (fun s => has_char "," s = false /\ s <> "") l2 ->
  strings_Join l1 "," = strings_Join l2 "," -> l1 = l2.
Proof.
  intros H1. revert l2. induction H1 as [|x xs [Hx Hxne] Hxs IH];
    intros l2 H2 Heq; destruct H2 as [|y ys [Hy Hyne] Hys].
  - done.
  - exfalso. destruct ys as [|y' ys].
    + cbn in Heq. congruence.
    + rewrite strings_Join_cons_cons in Heq. destruct y; [done|]. cbn in Heq. done.
  - exfalso. destruct xs as [|x' xs].
    + cbn in Heq. congruence.
    + rewrite strings_Join_cons_cons in Heq. destruct x; [done|]. cbn in Heq. done.
  - destruct xs as [|x' xs], ys as [|y' ys].
    + cbn in Heq. by subst.
    + exfalso. rewrite strings_Join_cons_cons in Heq.
      change (strings_Join [x] ",") with x in Heq.
      rewrite Heq, has_char_app, has_char_head, orb_true_r in Hx. done.
    + exfalso. rewrite strings_Join_cons_cons in Heq.
      change (strings_Join [y] ",") with y in Heq.
      rewrite <- Heq, has_char_app, has_char_head, orb_true_r in Hy. done.
    + rewrite !strings_Join_cons_cons in Heq.
      destruct (split_at_char _ _ _ _ _ Hx Hy Heq) as [-> Hrest].
      f_equal. by apply IH.
Qed.

Lemma label_key_fmap_part (l : list LabelPair) :
  label_part <$> l
  = (fun k : string * string => k.1 +:+ String "=" k.2) <$> (label_key <$> l).
Proof. rewrite <- list_fmap_compose. done. Qed.

Lemma key_parts_inj (k1 k2 : list (string * string)) :
  Forall (fun k => has_char "=" k.1 = false) k1 ->
  Forall (fun k => has_char "=" k.1 = false) k2 ->
  (fun k : string * string => k.1 +:+ String "=" k.2) <$> k1
  = (fun k : string * string => k.1 +:+ String "=" k.2) <$> k2 ->
  k1 = k2.
Proof.
  intros H1. revert k2. induction H1 as [|[n v] k1 Hn _ IH];
    intros k2 H2 Heq; destruct H2 as [|[n' v'] k2 Hn' H2]; try done.
  cbn in Heq, Hn, Hn'. injection Heq as Hhd Htl.
  destruct (split_at_char _ _ _ _ _ Hn Hn' Hhd) as [-> ->].
  f_equal. by apply IH.
Qed.

Lemma sort_Strings_eq_perm (a b : list string) :
  sort_Strings a = sort_Strings b -> a ≡ₚ b.
Proof.
  intros Heq. by rewrite <- (sort_Strings_perm a), Heq, sort_Strings_perm.
Qed.

Lemma insert_pair_perm (s : string) (l : list string) :
  insert_pair s l ≡ₚ s :: l.
Proof.
  induction l as [|x l IH]; [done|]. cbn.
  destruct (String.leb s x); [done|]. rewrite IH. apply perm_swap.
Qed.

Lemma insert_pair_sorted (s : string) (l : list string) :
  Sorted string_le l -> Sorted string_le (insert_pair s l).
Proof.
  induction 1 as [|x l Hl IH Hx]; cbn.
  - by repeat constructor.
  - destruct (String.leb s x) eqn:Hsx.
    + constructor; [by constructor|]. by constructor.
    + constructor; [done|].
      assert (string_le x s) as Hxs.
      { destruct (string_le_total s x) as [Habs|?]; [|done].
        unfold string_le in Habs. congruence. }
      destruct Hx as [|y l' Hxy]; cbn.
      * by constructor.
      * destruct (String.leb s y); by constructor.
Qed.

(** Sorting by insertion is [sort.Strings]. *)
Lemma foldr_insert_pair_sort (l : list string) :
  foldr insert_pair [] l = sort_Strings l.
Proof.
  apply sort_Strings_unique.
  - induction l as [|s l IH]; [constructor|]. cbn. by apply insert_pair_sorted.
  - induction l as [|s l IH]; [done|]. cbn. by rewrite insert_pair_perm, IH.
Qed.

(** [labelSignature] builds the signature that the specification words. *)
Lemma labelSignature_canonical (labels : list LabelPair) :
  labelSignature labels = canonical_signature labels.
Proof.
  unfold labelSignature, canonical_signature. cbn zeta.
  by rewrite foldr_insert_pair_sort.
Qed.

(** On labels that keep clear of the separators, equal signatures mean the
    same pairs. *)
Lemma labelSignature_plain_inj (labels1 labels2 : list LabelPair) :
  Forall plain_label labels1 -> Forall plain_label labels2 ->
  labelSignature labels1 = labelSignature labels2 ->
  label_key <$> labels1 ≡ₚ label_key <$> labels2.
Proof.
  intros H1 H2 Heq. unfold labelSignature in Heq. cbn zeta in Heq.
  apply strings_Join_inj in Heq.
  - apply sort_Strings_eq_perm in Heq. rewrite !label_key_fmap_part in Heq.
    apply Permutation_map_inv in Heq as (k3 & Heq & Hp). rewrite Hp.
    assert (label_key <$> labels1 = k3) as ->; [|done].
    apply key_parts_inj; [| |done].
    + apply Forall_fmap. eapply Forall_impl; [exact H1|]. by intros l (Hl & _).
    + rewrite <- Hp. apply Forall_fmap.
      eapply Forall_impl; [exact H2|]. by intros l (Hl & _).
  - rewrite sort_Strings_perm. apply Forall_fmap.
    eapply Forall_impl; [exact H1|]. intros l Hl. cbn.
    split; [by apply label_part_comma_free|apply label_part_nonempty].
  - rewrite sort_Strings_perm. apply Forall_fmap.
    eapply Forall_impl; [exact H2|]. intros l Hl. cbn.
    split; [by apply label_part_comma_free|apply label_part_nonempty].
Qed.

Lemma labelSignature_key_perm (labels1 labels2 : list LabelPair) :
  label_key <$> labels1 ≡ₚ label_key <$> labels2 ->
  labelSignature labels1 = labelSignature labels2.
Proof.
  intros Hp. unfold labelSignature. cbn zeta. f_equal.
  apply sort_Strings_perm_eq. rewrite !label_key_fmap_part. by rewrite Hp.
Qed.

(* ===================================================================== *)
(** * Properties: the Deduplicator *)
(* ===================================================================== *)

Lemma omap_ext_in {A B} (f g : A -> option B) (l : list A) :
  (forall x, x ∈ l -> f x = g x) -> omap f l = omap g l.
Proof.
  intros Hfg. apply list_omap_ext, Forall2_same_length_lookup.
  split; [done|]. intros i x y Hx Hy. simplify_eq.
  apply Hfg. by eapply list_elem_of_lookup_2.
Qed.

Lemma prefix_take_length {A} (l1 l2 : list A) :
  l1 `prefix_of` l2 -> l1 = take (length l1) l2.
Proof. intros [k ->]. by rewrite take_app_length. Qed.

Section dedup_props.
Context {Sample : Type}.
Implicit Types (m : Metric Sample) (ms pre : list (Metric Sample)).
Implicit Types (mf : MetricFamily Sample).
Implicit Types (mfs : gmap string (MetricFamily Sample)).

Lemma no_earlier_signature pre m :
  forallb (fun m' => negb (String.eqb (signature_of m') (signature_of m))) pre
  = negb (bool_decide (signature_of m ∈ signature_of <$> pre)).
Proof.
  induction pre as [|m' pre IH]; [done|]. cbn [forallb]. rewrite IH.
  destruct (String.eqb_spec (signature_of m') (signature_of m)) as [Heq|Hne]; cbn.
  - symmetry. apply negb_false_iff, bool_decide_eq_true. rewrite Heq. set_solver.
  - f_equal. apply bool_decide_ext. set_solver.
Qed.

(** The Prop-level reading of [retained]. *)
Lemma retained_spec ms i :
  retained ms i = true <->
  exists m, ms !! i = Some m /\
    forall j m', (j < i)%nat -> ms !! j = Some m' -> signature_of m' <> signature_of m.
Proof.
  unfold retained. destruct (ms !! i) as [m|] eqn:Hi; [|naive_solver].
  rewrite forallb_forall. split.
  - intros H. exists m. split; [done|]. intros j m' Hj Hm' Heq.
    assert (In m' (take i ms)) as Hin.
    { apply list_elem_of_In, list_elem_of_lookup. exists j.
      by rewrite lookup_take_lt. }
    apply H in Hin. rewrite Heq, String.eqb_refl in Hin. done.
  - intros (? & [= <-] & H) m' Hin.
    apply list_elem_of_In, list_elem_of_lookup in Hin as [j Hj].
    apply lookup_take_Some in Hj as [Hj Hlt].
    apply negb_true_iff, String.eqb_neq. by eapply H.
Qed.

Lemma retained_app_l pre ms i :
  (i < length pre)%nat -> retained (pre ++ ms) i = retained pre i.
Proof.
  intros Hi. unfold retained.
  rewrite lookup_app_l by done. rewrite take_app_le by lia. done.
Qed.

Lemma first_occurrences_snoc pre m :
  first_occurrences (pre ++ [m]) =
  first_occurrences pre ++
    (if bool_decide (signature_of m ∈ signature_of <$> pre) then [] else [m]).
Proof.
  unfold first_occurrences. rewrite length_app. cbn [length].
  rewrite Nat.add_1_r, seq_S, omap_app. f_equal.
  - apply omap_ext_in. intros i Hi. apply elem_of_seq in Hi.
    rewrite retained_app_l by lia. rewrite lookup_app_l by lia. done.
  - cbn. unfold retained. rewrite list_lookup_middle by done.
    rewrite take_app_length, no_earlier_signature.
    by destruct (bool_decide _).
Qed.

Lemma first_occurrences_nil : first_occurrences (@nil (Metric Sample)) = [].
Proof. done. Qed.

(** The loop invariant of [deduplicateMetricFamily]: after the series [ms],
    [deduplicated] holds their first occurrences and [seen] their
    signatures. *)
Lemma dedup_loop ms :
  (foldl dedup_step (∅, []) ms).2 = first_occurrences ms /\
  forall s, seen_get (foldl dedup_step (∅, []) ms).1 s
            = bool_decide (s ∈ signature_of <$> ms).
Proof.
  induction ms as [|m ms [IH1 IH2]] using rev_ind.
  - split; [done|]. intros s. cbn. unfold seen_get. by rewrite lookup_empty.
  - rewrite foldl_snoc, first_occurrences_snoc.
    unfold dedup_step at 1 3. fold (signature_of m). rewrite IH2.
    destruct (bool_decide_reflect (signature_of m ∈ signature_of <$> ms))
      as [Hin|Hnin]; cbn [fst snd].
    + rewrite app_nil_r. split; [done|]. intros s. rewrite IH2.
      apply bool_decide_ext. rewrite fmap_app. set_solver.
    + rewrite IH1. split; [done|]. intros s. unfold seen_get in *.
      destruct (decide (s = signature_of m)) as [->|Hne].
      * rewrite lookup_insert_eq. cbn. symmetry. apply bool_decide_eq_true.
        rewrite fmap_app. set_solver.
      * rewrite lookup_insert_ne by done. rewrite IH2.
        apply bool_decide_ext. rewrite fmap_app. set_solver.
Qed.

Lemma deduplicateMetricFamily_Metric mf :
  mf_Metric (deduplicateMetricFamily mf) = first_occurrences (mf_Metric mf).
Proof. apply dedup_loop. Qed.

Lemma first_occurrences_sublist ms : first_occurrences ms `sublist_of` ms.
Proof.
  induction ms as [|m ms IH] using rev_ind; [done|].
  rewrite first_occurrences_snoc. apply sublist_app; [done|].
  case_bool_decide; [apply sublist_nil_l|done].
Qed.

Lemma first_occurrences_signatures ms s :
  s ∈ signature_of <$> first_occurrences ms <-> s ∈ signature_of <$> ms.
Proof.
  induction ms as [|m ms IH] using rev_ind; [done|].
  rewrite first_occurrences_snoc, !fmap_app, !elem_of_app, IH.
  case_bool_decide; set_solver.
Qed.

Lemma first_occurrences_NoDup ms :
  NoDup (signature_of <$> first_occurrences ms).
Proof.
  induction ms as [|m ms IH] using rev_ind; [constructor|].
  rewrite first_occurrences_snoc, fmap_app. case_bool_decide as Hin.
  - by rewrite app_nil_r.
  - apply NoDup_app. split; [done|]. split; [|apply NoDup_singleton].
    intros s Hs Hs'. rewrite first_occurrences_signatures in Hs.
    cbn in Hs'. apply list_elem_of_singleton in Hs'. by subst.
Qed.

(** A list without repeated signatures is left as it is. *)
Lemma first_occurrences_id ms :
  NoDup (signature_of <$> ms) -> first_occurrences ms = ms.
Proof.
  induction ms as [|m ms IH] using rev_ind; [done|].
  rewrite fmap_app. intros (Hnd & Hdisj & _)%NoDup_app.
  rewrite first_occurrences_snoc, IH by done.
  case_bool_decide as Hin; [|done]. exfalso. apply (Hdisj _ Hin). set_solver.
Qed.

Lemma dedup_range_lookup (l : list (string * MetricFamily Sample)) mfs n :
  NoDup l.*1 ->
  (forall mf, (n, mf) ∈ l ->
     dedup_range mfs l !! n = Some (deduplicateMetricFamily mf)) /\
  (n ∉ l.*1 -> dedup_range mfs l !! n = mfs !! n).
Proof.
  revert mfs. induction l as [|[k v] l IH]; intros mfs Hnd.
  { split; [by intros ? ?%elem_of_nil|done]. }
  cbn in Hnd. apply NoDup_cons in Hnd as [Hk Hnd].
  change (dedup_range mfs ((k, v) :: l))
    with (dedup_range (<[k:=deduplicateMetricFamily v]> mfs) l). split.
  - intros mf [Heq|Hin]%elem_of_cons.
    + inversion Heq; subst k v.
      destruct (IH (<[n:=deduplicateMetricFamily mf]> mfs) Hnd) as [_ H2].
      rewrite H2 by done. apply lookup_insert_eq.
    + by apply IH.
  - intros Hn. cbn in Hn. apply not_elem_of_cons in Hn as [Hne Hn].
    destruct (IH (<[k:=deduplicateMetricFamily v]> mfs) Hnd) as [_ H2].
    rewrite H2 by done. by apply lookup_insert_ne.
Qed.

(** The order in which Go ranges over [mfs] does not matter. *)
Lemma dedup_range_perm (l l' : list (string * MetricFamily Sample)) mfs :
  NoDup l.*1 -> l ≡ₚ l' -> dedup_range mfs l = dedup_range mfs l'.
Proof.
  intros Hnd Hp. assert (NoDup l'.*1) as Hnd' by by rewrite <- Hp.
  apply map_eq. intros n.
  destruct (dedup_range_lookup l mfs n Hnd) as [H1 H2].
  destruct (dedup_range_lookup l' mfs n Hnd') as [H1' H2'].
  destruct (decide (n ∈ l.*1)) as [Hin|Hnin].
  - apply list_elem_of_fmap in Hin as ([k mf] & Hk & Hin). cbn in Hk. subst k.
    rewrite (H1 _ Hin). symmetry. apply H1'. by rewrite <- Hp.
  - rewrite H2 by done. symmetry. apply H2'. by rewrite <- Hp.
Qed.

(** Ranging over [mfs] deduplicates each family on its own. *)
Lemma deduplicate_all_lookup mfs n :
  deduplicate_all mfs !! n = deduplicateMetricFamily <$> (mfs !! n).
Proof.
  unfold deduplicate_all.
  destruct (dedup_range_lookup (map_to_list mfs) mfs n) as [H1 H2].
  { apply NoDup_fst_map_to_list. }
  destruct (mfs !! n) as [mf|] eqn:Hn; cbn.
  - apply H1. by apply elem_of_map_to_list.
  - rewrite H2; [done|]. intros ((k & v) & -> & Hin)%list_elem_of_fmap.
    apply elem_of_map_to_list in Hin. cbn in Hn. congruence.
Qed.

Lemma deduplicate_all_fmap mfs :
  deduplicate_all mfs = deduplicateMetricFamily <$> mfs.
Proof. apply map_eq. intros n. by rewrite deduplicate_all_lookup, lookup_fmap. Qed.

End dedup_props.

(* ===================================================================== *)
(** * Properties: the Family Merger *)
(* ===================================================================== *)

Section merge_props.
Context {Sample : Type}.
Implicit Types (mf mfo : MetricFamily Sample).
Implicit Types (mfs part : gmap string (MetricFamily Sample)).
Implicit Types (parts : list (gmap string (MetricFamily Sample))).

Lemma merge_entry_insert mfs n mf :
  merge_entry mfs (n, mf) = <[n := joined (mfs !! n) mf]> mfs.
Proof. unfold merge_entry. cbn. by destruct (mfs !! n). Qed.

Lemma merge_range_lookup (l : list (string * MetricFamily Sample)) mfs n :
  NoDup l.*1 ->
  (forall mf, (n, mf) ∈ l -> merge_range mfs l !! n = Some (joined (mfs !! n) mf)) /\
  (n ∉ l.*1 -> merge_range mfs l !! n = mfs !! n).
Proof.
  revert mfs. induction l as [|[k v] l IH]; intros mfs Hnd.
  { split; [by intros ? ?%elem_of_nil|done]. }
  cbn in Hnd. apply NoDup_cons in Hnd as [Hk Hnd].
  change (merge_range mfs ((k, v) :: l))
    with (merge_range (merge_entry mfs (k, v)) l).
  rewrite merge_entry_insert. split.
  - intros mf [Heq|Hin]%elem_of_cons.
    + inversion Heq; subst k v.
      destruct (IH (<[n:=joined (mfs !! n) mf]> mfs) Hnd) as [_ H2].
      rewrite H2 by done. apply lookup_insert_eq.
    + destruct (IH (<[k:=joined (mfs !! k) v]> mfs) Hnd) as [H1 _].
      rewrite (H1 _ Hin). rewrite lookup_insert_ne; [done|].
      intros ->. apply Hk, list_elem_of_fmap. by exists (n, mf).
  - intros Hn. cbn in Hn. apply not_elem_of_cons in Hn as [Hne Hn].
    destruct (IH (<[k:=joined (mfs !! k) v]> mfs) Hnd) as [_ H2].
    rewrite H2 by done. by apply lookup_insert_ne.
Qed.

(** The order in which Go ranges over a part does not matter. *)
Lemma merge_range_perm (l l' : list (string * MetricFamily Sample)) mfs :
  NoDup l.*1 -> l ≡ₚ l' -> merge_range mfs l = merge_range mfs l'.
Proof.
  intros Hnd Hp. assert (NoDup l'.*1) as Hnd' by by rewrite <- Hp.
  apply map_eq. intros n.
  destruct (merge_range_lookup l mfs n Hnd) as [H1 H2].
  destruct (merge_range_lookup l' mfs n Hnd') as [H1' H2'].
  destruct (decide (n ∈ l.*1)) as [Hin|Hnin].
  - apply list_elem_of_fmap in Hin as ([k mf] & Hk & Hin). cbn in Hk. subst k.
    rewrite (H1 _ Hin). symmetry. apply H1'. by rewrite <- Hp.
  - rewrite H2 by done. symmetry. apply H2'. by rewrite <- Hp.
Qed.

(** One source: a new name is inserted as it is, the series of a known
    name are appended to the family already there. *)
Lemma merge_response_lookup mfs part n :
  merge_response mfs (Some part) !! n =
  match part !! n with
  | Some mf => Some (joined (mfs !! n) mf)
  | None => mfs !! n
  end.
Proof.
  cbn. destruct (merge_range_lookup (map_to_list part) mfs n) as [H1 H2].
  { apply NoDup_fst_map_to_list. }
  destruct (part !! n) as [mf|] eqn:Hn.
  - apply H1. by apply elem_of_map_to_list.
  - apply H2. intros ((k & v) & -> & Hin)%list_elem_of_fmap.
    apply elem_of_map_to_list in Hin. cbn in Hn. congruence.
Qed.

Lemma merge_response_union_with mfs part :
  merge_response mfs (Some part) =
  union_with (fun mfo mf => Some (set_Metric mfo (mf_Metric mfo ++ mf_Metric mf)))
    mfs part.
Proof.
  apply map_eq. intros n. rewrite merge_response_lookup, lookup_union_with.
  by destruct (mfs !! n), (part !! n).
Qed.

Lemma set_Metric_set_Metric mf (a b : list (Metric Sample)) :
  set_Metric (set_Metric mf a) b = set_Metric mf b.
Proof. done. Qed.

Lemma set_Metric_id mf : set_Metric mf (mf_Metric mf) = mf.
Proof. by destruct mf. Qed.

(** The families stored after ranging over [rs], from the set [mfs]. *)
Lemma foldl_merge_response_lookup
    (rs : list (option (gmap string (MetricFamily Sample)))) mfs n :
  foldl merge_response mfs rs !! n =
  merged_family (option_list (mfs !! n) ++ omap (fun r => r ≫= (.!! n)) rs).
Proof.
  revert mfs. induction rs as [|[part|] rs IH]; intros mfs; cbn [foldl].
  - cbn. rewrite app_nil_r. destruct (mfs !! n) as [mf|]; cbn; [|done].
    by rewrite app_nil_r, set_Metric_id.
  - rewrite IH, merge_response_lookup. cbn.
    destruct (part !! n) as [mf|] eqn:Hp; cbn; [|done].
    destruct (mfs !! n) as [mfo|]; cbn; [|done].
    by rewrite <- app_assoc.
  - rewrite IH. done.
Qed.

Lemma merge_responses_lookup
    (rs : list (option (gmap string (MetricFamily Sample)))) n :
  merge_responses rs !! n = merged_family (omap (fun r => r ≫= (.!! n)) rs).
Proof.
  unfold merge_responses. rewrite foldl_merge_response_lookup.
  by rewrite lookup_empty.
Qed.

Lemma omap_replicate_None {A B} (f : option A -> option B) (k : nat) :
  f None = None -> omap f (replicate k None) = [].
Proof. intros Hf. induction k as [|k IH]; [done|]. cbn. by rewrite Hf. Qed.

Lemma Merger_merge_responses parts :
  Merger parts = merge_responses (Some <$> parts).
Proof.
  unfold Merger, merge_responses. generalize (∅ : gmap string (MetricFamily Sample)).
  induction parts as [|part parts IH]; intros mfs; [done|]. cbn [foldl fmap list_fmap].
  rewrite IH. by rewrite merge_response_union_with.
Qed.

Lemma Merger_lookup parts n :
  Merger parts !! n = merged_family (families_named n parts).
Proof.
  rewrite Merger_merge_responses, merge_responses_lookup. f_equal.
  unfold families_named. induction parts as [|part parts IH]; [done|].
  cbn. rewrite IH. done.
Qed.

(** The entries that [make] creates contribute nothing. *)
Lemma merge_responses_presized (k : nat) parts :
  merge_responses (replicate k None ++ (Some <$> parts)) = Merger parts.
Proof.
  rewrite Merger_merge_responses. apply map_eq. intros n.
  rewrite !merge_responses_lookup, omap_app.
  by rewrite omap_replicate_None.
Qed.

End merge_props.

(* ===================================================================== *)
(** * Properties: the fan-out, the encoder loop and [Merge] *)
(* ===================================================================== *)

Section names_props.
Context {Sample : Type}.
Implicit Types (mfs : gmap string (MetricFamily Sample)).

Lemma sorted_names_perm mfs : sorted_names mfs ≡ₚ (map_to_list mfs).*1.
Proof. apply sort_Strings_perm. Qed.

Lemma elem_of_sorted_names mfs n : n ∈ sorted_names mfs <-> is_Some (mfs !! n).
Proof.
  rewrite sorted_names_perm, list_elem_of_fmap. split.
  - intros ([k v] & -> & Hin). apply elem_of_map_to_list in Hin. by exists v.
  - intros [v Hv]. exists (n, v). split; [done|]. by apply elem_of_map_to_list.
Qed.

Lemma sorted_names_strict mfs : StronglySorted string_lt (sorted_names mfs).
Proof. apply sort_Strings_strict, NoDup_fst_map_to_list. Qed.

Lemma sorted_names_NoDup mfs : NoDup (sorted_names mfs).
Proof. rewrite sorted_names_perm. apply NoDup_fst_map_to_list. Qed.

(** The order in which Go ranges over [mfs] to collect the names does not
    matter. *)
Lemma sorted_names_any_order mfs (ks : list string) :
  ks ≡ₚ (map_to_list mfs).*1 -> sort_Strings ks = sorted_names mfs.
Proof. apply sort_Strings_perm_eq. Qed.

(** The names depend on the key set only. *)
Lemma sorted_names_dom mfs1 mfs2 :
  dom mfs1 = dom mfs2 -> sorted_names mfs1 = sorted_names mfs2.
Proof.
  intros Hdom. apply sort_Strings_perm_eq.
  apply NoDup_Permutation; [apply NoDup_fst_map_to_list..|].
  intros n. rewrite <- !sorted_names_perm, !elem_of_sorted_names.
  by rewrite <- !elem_of_dom, Hdom.
Qed.

Lemma lookup_total_sorted_names mfs n :
  n ∈ sorted_names mfs -> mfs !! n = Some (mfs !!! n).
Proof.
  intros [mf Hmf]%elem_of_sorted_names.
  by rewrite lookup_total_alt, Hmf.
Qed.

End names_props.

Section pipeline_props.
Context {Sample W : Type}.
Context (Encode : W -> MetricFamily Sample -> W * option string).
Implicit Types (w : World Sample W) (out : W).
Implicit Types (mfs : gmap string (MetricFamily Sample)).
Implicit Types (fams : list (MetricFamily Sample)).
Implicit Types (arrivals : list (string * FetchOutcome Sample)).

Lemma task_run (rs : list (option (gmap string (MetricFamily Sample))))
    (t : string * FetchOutcome Sample) w :
  task rs t w =
  (rs ++ (Some <$> parts_of [t]),
   {| w_out := w_out w; w_encoded := w_encoded w;
      w_log := w_log w ++ fetch_errors [t] |}).
Proof.
  destruct t as [u [err|err|part]];
    unfold task, mbind, M_bind, mret, M_ret, log_Error; cbn;
    rewrite ?app_nil_r; try done.
  by destruct w.
Qed.

Lemma fanout_run arrivals
    (rs : list (option (gmap string (MetricFamily Sample)))) w :
  fanout rs arrivals w =
  (rs ++ (Some <$> parts_of arrivals),
   {| w_out := w_out w; w_encoded := w_encoded w;
      w_log := w_log w ++ fetch_errors arrivals |}).
Proof.
  revert rs w. induction arrivals as [|t ts IH]; intros rs w.
  - cbn. rewrite !app_nil_r. by destruct w.
  - cbn [fanout]. unfold mbind, M_bind. rewrite task_run. cbn [fst snd].
    rewrite IH. cbn [w_out w_encoded w_log].
    change (t :: ts) with ([t] ++ ts). unfold parts_of, fetch_errors.
    by rewrite !omap_app, fmap_app, !app_assoc.
Qed.

Lemma encode_loop_emit mfs (names : list string) w :
  encode_loop Encode mfs names w =
  let r := emit Encode (w_out w) ((fun n => mfs !!! n) <$> names) in
  (tt, {| w_out := r.1.1; w_encoded := w_encoded w ++ r.1.2;
          w_log := w_log w ++ encode_error r.2 |}).
Proof.
  revert w. induction names as [|n names IH]; intros w.
  - cbn. rewrite !app_nil_r. by destruct w.
  - cbn [encode_loop fmap list_fmap emit]. unfold mbind, M_bind, enc_Encode.
    cbn [fst snd]. destruct (Encode (w_out w) (mfs !!! n)) as [out' [e|]]; cbn [fst snd].
    + done.
    + rewrite IH. cbn. by rewrite <- app_assoc.
Qed.

(** [Merge], for tasks ending in the order [arrivals], in closed form. *)
Lemma Merge_arrivals_run (d : bool) arrivals w :
  Merge_arrivals Encode d arrivals w =
  let mfs := merged_set d arrivals in
  let r := emit Encode (w_out w) ((fun n => mfs !!! n) <$> sorted_names mfs) in
  (tt, {| w_out := r.1.1; w_encoded := w_encoded w ++ r.1.2;
          w_log := w_log w ++ fetch_errors arrivals ++ encode_error r.2 |}).
Proof.
  unfold Merge_arrivals. unfold mbind at 1. unfold M_bind.
  rewrite fanout_run. cbn [fst snd]. rewrite encode_loop_emit. cbn.
  unfold merged_set. by rewrite <- app_assoc.
Qed.

Lemma emit_prefix out fams : (emit Encode out fams).1.2 `prefix_of` fams.
Proof.
  revert out. induction fams as [|mf fams IH]; intros out; [done|].
  cbn. destruct (Encode out mf) as [out' [e|]]; cbn.
  - by apply prefix_cons, prefix_nil.
  - by apply prefix_cons.
Qed.

Lemma emit_complete out fams :
  (emit Encode out fams).2 = None -> (emit Encode out fams).1.2 = fams.
Proof.
  revert out. induction fams as [|mf fams IH]; intros out; [done|].
  cbn. destruct (Encode out mf) as [out' [e|]]; cbn; [done|].
  intros H. by rewrite IH.
Qed.

(** After writes that were all accepted, a rejected write ends the loop. *)
Lemma emit_app_fail out (pre post : list (MetricFamily Sample)) mf out1 out2 e :
  emit Encode out pre = (out1, pre, None) ->
  Encode out1 mf = (out2, Some e) ->
  emit Encode out (pre ++ mf :: post) = (out2, pre ++ [mf], Some e).
Proof.
  revert out. induction pre as [|f pre IH]; intros out Hpre Hmf.
  - cbn in Hpre. simplify_eq. cbn. by rewrite Hmf.
  - cbn in Hpre |- *. destruct (Encode out f) as [out' [e'|]]; [done|].
    destruct (emit Encode out' pre) as [[o1 enc1] err1] eqn:Hr. cbn in Hpre.
    simplify_eq. by rewrite (IH out' Hr Hmf).
Qed.

(** Every loop that ends with an error has this shape. *)
Lemma emit_fail_inv out fams e :
  (emit Encode out fams).2 = Some e ->
  exists pre mf post out1,
    fams = pre ++ mf :: post /\
    emit Encode out pre = (out1, pre, None) /\
    Encode out1 mf = ((emit Encode out fams).1.1, Some e) /\
    (emit Encode out fams).1.2 = pre ++ [mf].
Proof.
  revert out. induction fams as [|f fams IH]; intros out; [done|].
  cbn. destruct (Encode out f) as [out' [e'|]] eqn:Hf; cbn.
  - intros [= ->]. by exists [], f, fams, out.
  - intros (pre & mf & post & out1 & -> & Hpre & Hmf & Henc)%IH.
    exists (f :: pre), mf, post, out1. cbn. rewrite Hf, Hpre. cbn.
    by rewrite Henc.
Qed.

Lemma writer_after_0 out fams : writer_after Encode out fams 0 = out.
Proof. done. Qed.

Lemma writer_after_S out mf fams (i : nat) :
  writer_after Encode out (mf :: fams) (S i)
  = writer_after Encode (Encode out mf).1 fams i.
Proof. done. Qed.

(** When every write is accepted, all the families are encoded. *)
Lemma emit_accepted out fams :
  (forall i mf, fams !! i = Some mf ->
     (Encode (writer_after Encode out fams i) mf).2 = None) ->
  emit Encode out fams = (writer_after Encode out fams (length fams), fams, None).
Proof.
  revert out. induction fams as [|mf fams IH]; intros out Hacc; [done|].
  pose proof (Hacc 0%nat mf eq_refl) as H0. rewrite writer_after_0 in H0.
  cbn [emit length]. rewrite writer_after_S.
  destruct (Encode out mf) as [out' err] eqn:Hmf. cbn in H0. subst err.
  rewrite IH; [done|]. intros i mf' Hi.
  specialize (Hacc (S i) mf' Hi). rewrite writer_after_S, Hmf in Hacc. done.
Qed.

(** When the write of the family at index [k] is the first that is
    rejected, the families up to that one are encoded, and no other. *)
Lemma emit_rejected out fams (k : nat) mf out' e :
  fams !! k = Some mf ->
  (forall i mf', (i < k)%nat -> fams !! i = Some mf' ->
     (Encode (writer_after Encode out fams i) mf').2 = None) ->
  Encode (writer_after Encode out fams k) mf = (out', Some e) ->
  emit Encode out fams = (out', take (S k) fams, Some e).
Proof.
  revert out k. induction fams as [|f fams IH]; intros out k Hk Hacc Hrej; [done|].
  destruct k as [|k].
  - cbn in Hk. injection Hk as ->. rewrite writer_after_0 in Hrej.
    cbn [emit]. by rewrite Hrej.
  - cbn in Hk. pose proof (Hacc 0%nat f ltac:(lia) eq_refl) as H0.
    rewrite writer_after_0 in H0. rewrite writer_after_S in Hrej.
    cbn [emit]. destruct (Encode out f) as [out1 err] eqn:Hf. cbn in H0. subst err.
    cbn [fst] in Hrej. rewrite (IH out1 k Hk); [done| |done].
    intros i mf' Hi Hmf'. specialize (Hacc (S i) mf' ltac:(lia) Hmf').
    rewrite writer_after_S, Hf in Hacc. done.
Qed.

(** One of the two is the case. *)
Lemma emit_accepted_or_rejected out fams :
  (forall i mf, fams !! i = Some mf ->
     (Encode (writer_after Encode out fams i) mf).2 = None)
  \/ (exists (k : nat) mf e,
        fams !! k = Some mf
        /\ (forall i mf', (i < k)%nat -> fams !! i = Some mf' ->
              (Encode (writer_after Encode out fams i) mf').2 = None)
        /\ (Encode (writer_after Encode out fams k) mf).2 = Some e).
Proof.
  revert out. induction fams as [|f fams IH]; intros out.
  { left. by intros i mf ?. }
  destruct (Encode out f) as [out1 [e|]] eqn:Hf.
  - right. exists 0%nat, f, e. rewrite writer_after_0, Hf.
    split; [done|]. split; [|done]. intros i mf' Hi. lia.
  - destruct (IH out1) as [Hacc|(k & mf & e & Hk & Hacc & Hrej)].
    + left. intros [|i] mf Hi.
      * cbn in Hi. injection Hi as <-. by rewrite writer_after_0, Hf.
      * rewrite writer_after_S, Hf. by apply Hacc.
    + right. exists (S k), mf, e. split; [done|].
      rewrite writer_after_S, Hf. split; [|done].
      intros [|i] mf' Hi Hmf'.
      * cbn in Hmf'. injection Hmf' as <-. by rewrite writer_after_0, Hf.
      * rewrite writer_after_S, Hf. apply Hacc; [lia|done].
Qed.

(** A family is encoded when the writes before it were accepted. *)
Lemma emit_reaches out fams (k : nat) mf :
  fams !! k = Some mf ->
  (forall i mf', (i < k)%nat -> fams !! i = Some mf' ->
     (Encode (writer_after Encode out fams i) mf').2 = None) ->
  (emit Encode out fams).1.2 !! k = Some mf.
Proof.
  intros Hk Hacc.
  destruct (Encode (writer_after Encode out fams k) mf) as [out' [e|]] eqn:Hmf.
  - rewrite (emit_rejected _ _ _ _ _ _ Hk Hacc Hmf). cbn.
    rewrite lookup_take_lt by lia. done.
  - destruct (emit_accepted_or_rejected out fams)
      as [Hall|(j & mfj & e & Hj & Haccj & Hrej)].
    + by rewrite (emit_accepted _ _ Hall).
    + destruct (Encode (writer_after Encode out fams j) mfj) as [outj errj] eqn:Hmfj.
      cbn in Hrej. subst errj.
      rewrite (emit_rejected _ _ _ _ _ _ Hj Haccj Hmfj). cbn.
      assert (k <= j)%nat as Hkj.
      { destruct (decide (k <= j)%nat) as [|Hn]; [done|]. exfalso.
        pose proof (Hacc j mfj ltac:(lia) Hj) as Habs. rewrite Hmfj in Habs. done. }
      rewrite lookup_take_lt by lia. done.
Qed.

End pipeline_props.

(* ===================================================================== *)
(** * Schedules are the interleavings of the goroutines *)
(* ===================================================================== *)

Section interleavings.
Context {Sample W : Type}.
Implicit Types (ts : list (string * FetchOutcome Sample)).
Implicit Types (st : FanState Sample W) (sched : list nat).

Lemma arrivals_of_cons ts i sched t :
  ts !! i = Some t -> arrivals_of (i :: sched) ts = t :: arrivals_of sched ts.
Proof. intros Hi. unfold arrivals_of. cbn. by rewrite Hi. Qed.

Lemma fan_steps_sched ts st st' :
  rtc (fan_step ts) st st' ->
  fs_running st' = ∅ ->
  exists sched,
    NoDup sched /\ (forall i, i ∈ sched <-> i ∈ fs_running st)
    /\ Forall (fun i => is_Some (ts !! i)) sched
    /\ fanout (fs_responses st) (arrivals_of sched ts) (fs_world st)
       = (fs_responses st', fs_world st').
Proof.
  induction 1 as [st|st st1 st' Hstep _ IH]; intros Hend.
  - exists []. split; [constructor|]. split; [|split; [constructor|done]].
    intros i. rewrite Hend. set_solver.
  - destruct (IH Hend) as (sched & Hnd & Hel & Hval & Hrun).
    destruct Hstep as [i t st Hi Ht]. cbn in *.
    exists (i :: sched). split; [|split; [|split]].
    + constructor; [|done]. rewrite Hel. set_solver.
    + intros j. rewrite elem_of_cons, Hel.
      destruct (decide (j = i)) as [->|]; set_solver.
    + constructor; [by eexists|done].
    + rewrite (arrivals_of_cons ts i sched t Ht). cbn [fanout].
      unfold mbind, M_bind. exact Hrun.
Qed.

Lemma sched_fan_steps ts sched (R : gset nat)
    (rs : list (option (gmap string (MetricFamily Sample))))
    (w : World Sample W) :
  NoDup sched -> (forall i, i ∈ sched <-> i ∈ R) ->
  Forall (fun i => is_Some (ts !! i)) sched ->
  rtc (fan_step ts) (mkFanState R rs w)
    (mkFanState ∅ (fanout rs (arrivals_of sched ts) w).1
                  (fanout rs (arrivals_of sched ts) w).2).
Proof.
  revert R rs w. induction sched as [|i sched IH]; intros R rs w Hnd Hel Hval.
  - assert (R = ∅) as -> by set_solver. cbn. apply rtc_refl.
  - apply NoDup_cons in Hnd as [Hi Hnd].
    apply Forall_cons in Hval as [[t Ht] Hval].
    rewrite (arrivals_of_cons ts i sched t Ht). cbn [fanout].
    unfold mbind, M_bind.
    eapply rtc_l.
    + apply (fan_step_end ts i t (mkFanState R rs w)); [|done].
      apply Hel. left.
    + cbn. apply IH; [done| |done].
      intros j. rewrite elem_of_difference, <- Hel, elem_of_cons.
      rewrite elem_of_singleton. split; [|naive_solver].
      intros Hj. split; [by right|]. by intros ->.
Qed.

(** [wg.Wait()] returns in the states that [fanout] computes for the
    orders of ending [sched] of all the tasks, and in no other. *)
Lemma fan_steps_iff_schedule ts
    (rs rs' : list (option (gmap string (MetricFamily Sample))))
    (w w' : World Sample W) :
  rtc (fan_step ts)
    (mkFanState (list_to_set (seq 0 (length ts))) rs w)
    (mkFanState ∅ rs' w')
  <-> exists sched,
        sched ≡ₚ seq 0 (length ts)
        /\ fanout rs (arrivals_of sched ts) w = (rs', w').
Proof.
  split.
  - intros Hsteps. apply fan_steps_sched in Hsteps as (sched & Hnd & Hel & _ & Hrun);
      [|done].
    exists sched. split; [|done].
    apply NoDup_Permutation; [done|apply NoDup_seq|].
    intros i. rewrite Hel. cbn. by rewrite elem_of_list_to_set.
  - intros (sched & Hp & Hrun).
    pose proof (sched_fan_steps ts sched (list_to_set (seq 0 (length ts))) rs w)
      as Hsteps.
    rewrite Hrun in Hsteps. apply Hsteps.
    + rewrite Hp. apply NoDup_seq.
    + intros i. by rewrite elem_of_list_to_set, Hp.
    + rewrite Hp. apply Forall_forall. intros i Hi.
      apply elem_of_seq in Hi. apply lookup_lt_is_Some. lia.
Qed.

(** When every task ends once, the arrivals are the tasks in some order. *)
Lemma arrivals_of_schedule ts sched :
  sched ≡ₚ seq 0 (length ts) -> arrivals_of sched ts ≡ₚ ts.
Proof.
  intros Hp. unfold arrivals_of. rewrite Hp. clear sched Hp.
  assert (omap (fun i => ts !! i) (seq 0 (length ts)) = ts) as ->; [|done].
  induction ts as [|t ts IH] using rev_ind; [done|].
  rewrite length_app. cbn [length]. rewrite Nat.add_1_r, seq_S, omap_app.
  cbn. rewrite list_lookup_middle by done. cbn.
  f_equal.
  transitivity (omap (fun i => ts !! i) (seq 0 (length ts))); [|exact IH].
  apply omap_ext_in.
  intros i Hi. apply elem_of_seq in Hi. apply lookup_app_l. lia.
Qed.

End interleavings.

(* ===================================================================== *)
(** * The claims on the Deduplicator *)
(* ===================================================================== *)

Lemma deduplicateMetricFamily_eq {Sample} (mf : MetricFamily Sample) :
  deduplicateMetricFamily mf = set_Metric mf (first_occurrences (mf_Metric mf)).
Proof.
  unfold deduplicateMetricFamily. f_equal. apply dedup_loop.
Qed.

(** C2.  For every family, [deduplicateMetricFamily] keeps exactly the series
    that are the first of their label-set signature: the series at index [i]
    is kept iff no series at a smaller index has an equal signature, whatever
    the samples of either.  The kept series stand in their original relative
    order, their signatures are pairwise distinct and are all the signatures
    of the family; the name, help text and type are untouched.  The signature
    is canonical: it does not depend on the order of the labels.  Ranging over
    the family set deduplicates each family on its own.  The signature of a
    series is the one the specification words: its labels as [name=value]
    strings, sorted bytewise, joined with [","].  It keeps series with
    different labels apart: on labels that hold neither of the separators,
    two series have the same signature only when they have the same
    name/value pairs, so there a series is dropped exactly when an earlier
    one has its pairs. *)
Theorem deduplicate_keeps_first_occurrences {Sample}
    (mf : MetricFamily Sample) (mfs : gmap string (MetricFamily Sample))
    (n : string) :
  mf_Metric (deduplicateMetricFamily mf) = first_occurrences (mf_Metric mf)
  /\ (forall i, retained (mf_Metric mf) i = true <->
        exists m, mf_Metric mf !! i = Some m /\
          forall j m', (j < i)%nat -> mf_Metric mf !! j = Some m' ->
            signature_of m' <> signature_of m)
  /\ mf_Metric (deduplicateMetricFamily mf) `sublist_of` mf_Metric mf
  /\ NoDup (signature_of <$> mf_Metric (deduplicateMetricFamily mf))
  /\ (forall s, s ∈ signature_of <$> mf_Metric (deduplicateMetricFamily mf) <->
                s ∈ signature_of <$> mf_Metric mf)
  /\ mf_Name (deduplicateMetricFamily mf) = mf_Name mf
  /\ mf_Help (deduplicateMetricFamily mf) = mf_Help mf
  /\ mf_Type (deduplicateMetricFamily mf) = mf_Type mf
  /\ (forall m1 m2 : Metric Sample,
        m_Label m1 ≡ₚ m_Label m2 -> signature_of m1 = signature_of m2)
  /\ deduplicate_all mfs !! n = deduplicateMetricFamily <$> (mfs !! n)
  /\ (forall m : Metric Sample,
        signature_of m = canonical_signature (m_Label m))
  /\ (forall m : Metric Sample, exists pairs : list string,
        pairs ≡ₚ (fun l => LabelPair_GetName l +:+ "=" +:+ LabelPair_GetValue l)
                   <$> m_Label m
        /\ Sorted string_le pairs
        /\ signature_of m = String.concat "," pairs)
  /\ (forall m1 m2 : Metric Sample,
        Forall plain_label (m_Label m1) -> Forall plain_label (m_Label m2) ->
        (signature_of m1 = signature_of m2 <->
         label_key <$> m_Label m1 ≡ₚ label_key <$> m_Label m2))
  /\ (Forall (fun m => Forall plain_label (m_Label m)) (mf_Metric mf) ->
      forall i, retained (mf_Metric mf) i = true <->
        exists m, mf_Metric mf !! i = Some m /\
          forall j m', (j < i)%nat -> mf_Metric mf !! j = Some m' ->
            ~ label_key <$> m_Label m' ≡ₚ label_key <$> m_Label m).
Proof.
  rewrite deduplicateMetricFamily_Metric.
  split; [done|]. split; [apply retained_spec|].
  split; [apply first_occurrences_sublist|].
  split; [apply first_occurrences_NoDup|].
  split; [apply first_occurrences_signatures|].
  repeat (split; [done|]).
  split; [intros m1 m2 Hp; by apply labelSignature_perm|].
  split; [apply deduplicate_all_lookup|].
  split; [intros m; apply labelSignature_canonical|].
  split.
  { intros m. exists (sort_Strings (label_part <$> m_Label m)).
    split; [apply sort_Strings_perm|]. split; [apply sort_Strings_sorted|done]. }
  assert (forall m1 m2 : Metric Sample,
    Forall plain_label (m_Label m1) -> Forall plain_label (m_Label m2) ->
    (signature_of m1 = signature_of m2 <->
     label_key <$> m_Label m1 ≡ₚ label_key <$> m_Label m2)) as Hinj.
  { intros m1 m2 H1 H2. split.
    - by apply labelSignature_plain_inj.
    - apply labelSignature_key_perm. }
  split; [exact Hinj|].
  intros Hplain i. rewrite retained_spec.
  split; intros (m & Hm & Hearlier); exists m; (split; [done|]);
    intros j m' Hj Hm'; specialize (Hearlier j m' Hj Hm').
  - intros Hp. apply Hearlier. apply Hinj; [..|done].
    + by eapply (Forall_lookup_1 _ _ _ _ Hplain).
    + by eapply (Forall_lookup_1 _ _ _ _ Hplain).
  - intros Heq. apply Hearlier. apply Hinj; [..|done].
    + by eapply (Forall_lookup_1 _ _ _ _ Hplain).
    + by eapply (Forall_lookup_1 _ _ _ _ Hplain).
Qed.

(** C8.  Deduplication is idempotent, on a family and on a family set. *)
Theorem deduplication_idempotent {Sample}
    (mf : MetricFamily Sample) (mfs : gmap string (MetricFamily Sample)) :
  deduplicateMetricFamily (deduplicateMetricFamily mf) = deduplicateMetricFamily mf
  /\ deduplicate_all (deduplicate_all mfs) = deduplicate_all mfs.
Proof.
  assert (forall f : MetricFamily Sample,
    deduplicateMetricFamily (deduplicateMetricFamily f) = deduplicateMetricFamily f)
    as Hidem.
  { intros f. rewrite (deduplicateMetricFamily_eq (deduplicateMetricFamily f)).
    rewrite deduplicateMetricFamily_Metric.
    rewrite first_occurrences_id by apply first_occurrences_NoDup.
    by rewrite deduplicateMetricFamily_eq. }
  split; [apply Hidem|].
  rewrite !deduplicate_all_fmap, <- map_fmap_compose.
  apply map_fmap_ext. intros k f _. apply Hidem.
Qed.

(** C10.  [labelSignature] is not injective on label sets: the one label
    [a="1,b=2"] and the two labels [a="1"], [b="2"] have the signature
    [a=1,b=2].  Deduplication of a family holding a series of each drops the
    second, although no kept series has its labels. *)
Theorem labelSignature_not_injective :
  exists labels1 labels2 : list LabelPair,
    ~ (forall l, l ∈ labels1 <-> l ∈ labels2)
    /\ labelSignature labels1 = labelSignature labels2
    /\ exists (mf : MetricFamily Z) (m : Metric Z),
         m ∈ mf_Metric mf
         /\ Metric_GetLabel m = labels2
         /\ (m ∉ mf_Metric (deduplicateMetricFamily mf))
         /\ forall m', m' ∈ mf_Metric (deduplicateMetricFamily mf) ->
              Metric_GetLabel m' = labels1.
Proof.
  exists [lp "a" "1,b=2"], [lp "a" "1"; lp "b" "2"].
  split.
  { intros H. assert (lp "a" "1" ∈ [lp "a" "1,b=2"]) as Hin.
    { apply H. left. }
    apply list_elem_of_singleton in Hin. discriminate. }
  split; [by vm_compute|].
  exists (family "m" "" GAUGE
            [series [lp "a" "1,b=2"] 1; series [lp "a" "1"; lp "b" "2"] 2]),
         (series [lp "a" "1"; lp "b" "2"] 2).
  split; [right; left|]. split; [done|].
  assert (mf_Metric (deduplicateMetricFamily (family "m" "" GAUGE
            [series [lp "a" "1,b=2"] 1; series [lp "a" "1"; lp "b" "2"] 2]))
          = [series [lp "a" "1,b=2"] 1]) as -> by by vm_compute.
  split.
  - intros Hin. apply list_elem_of_singleton in Hin. discriminate.
  - intros m' Hin. apply list_elem_of_singleton in Hin. by subst.
Qed.

(* ===================================================================== *)
(** * The claims on the Family Merger *)
(* ===================================================================== *)

(** C3.  Merging one source into [mfs] inserts a family whose name is not
    present as it is, and for a name that is present appends the incoming
    series to the series of the family already there.  Over a sequence of
    sources, the family stored under a name has the name, help text and type
    of the first source that has the name, and the series of all the sources
    that have it, in source order; there is no case in which the merge fails
    or refuses a family, and the log of a run has no entries other than those
    of the fetch tasks and of the encoder. *)
Theorem merger_appends_first_seen_wins {Sample W}
    (Encode : W -> MetricFamily Sample -> W * option string)
    (mfs part : gmap string (MetricFamily Sample))
    (parts : list (gmap string (MetricFamily Sample))) (n : string)
    (d : bool) (arrivals : list (string * FetchOutcome Sample))
    (w : World Sample W) :
  merge_response mfs (Some part) !! n =
    match part !! n with
    | Some mf =>
        Some (match mfs !! n with
              | Some mfo => set_Metric mfo (mf_Metric mfo ++ mf_Metric mf)
              | None => mf
              end)
    | None => mfs !! n
    end
  /\ merge_responses (Some <$> parts) !! n = merged_family (families_named n parts)
  /\ match families_named n parts with
     | [] => merge_responses (Some <$> parts) !! n = None
     | f :: fs =>
         exists mf, merge_responses (Some <$> parts) !! n = Some mf
           /\ mf_Name mf = mf_Name f /\ mf_Help mf = mf_Help f
           /\ mf_Type mf = mf_Type f
           /\ mf_Metric mf = mf_Metric f ++ concat (mf_Metric <$> fs)
     end
  /\ exists err,
       w_log (Merge_arrivals Encode d arrivals w).2 =
       w_log w ++ fetch_errors arrivals ++ encode_error err.
Proof.
  split; [apply merge_response_lookup|].
  rewrite <- Merger_merge_responses, Merger_lookup.
  split; [done|]. split.
  - destruct (families_named n parts) as [|f fs]; [done|].
    by eexists.
  - rewrite Merge_arrivals_run. by eexists.
Qed.


(* ===================================================================== *)
(** * The claims on failures, the serializer and the fetch order *)
(* ===================================================================== *)

Section run_props.
Context {Sample W : Type}.
Context (Encode : W -> MetricFamily Sample -> W * option string).
Implicit Types (w : World Sample W).
Implicit Types (mfs : gmap string (MetricFamily Sample)).
Implicit Types (arrivals : list (string * FetchOutcome Sample)).
Implicit Types (parts : list (gmap string (MetricFamily Sample))).

Lemma merged_set_Merger (d : bool) arrivals :
  merged_set d arrivals =
  if d then deduplicate_all (Merger (parts_of arrivals))
  else Merger (parts_of arrivals).
Proof. unfold merged_set. by rewrite merge_responses_presized. Qed.

Lemma parts_of_succeeded arrivals :
  parts_of (filter (fun t => succeeded t = true) arrivals) = parts_of arrivals.
Proof.
  unfold parts_of, fetch_errors.
  unfold parts_of, fetch_errors.
  induction arrivals as [|[u o] ts IH]; [done|].
  rewrite filter_cons.
  destruct o as [err|err|part]; case_decide as Hs; cbn in Hs; try done;
    cbn; by rewrite ?IH.
Qed.

Lemma parts_of_failed arrivals :
  Forall (fun t => succeeded t = false) arrivals -> parts_of arrivals = [].
Proof.
  induction 1 as [|[u o] ts Ht _ IH]; [done|].
  destruct o; cbn in *; done.
Qed.

Lemma fetch_errors_succeeded arrivals :
  fetch_errors (filter (fun t => succeeded t = true) arrivals) = [].
Proof.
  unfold parts_of, fetch_errors.
  induction arrivals as [|[u o] ts IH]; [done|].
  rewrite filter_cons.
  destruct o as [err|err|part]; case_decide as Hs; cbn in Hs; try done;
    cbn; by rewrite ?IH.
Qed.

Lemma sorted_names_empty :
  sorted_names (∅ : gmap string (MetricFamily Sample)) = [].
Proof. unfold sorted_names. by rewrite map_to_list_empty. Qed.

Lemma merged_set_no_parts (d : bool) arrivals :
  parts_of arrivals = [] -> merged_set d arrivals = ∅.
Proof.
  intros Hp. rewrite merged_set_Merger, Hp. cbn.
  destruct d; [|done]. by rewrite deduplicate_all_fmap, fmap_empty.
Qed.

Lemma arrivals_of_nil (sched : list nat) :
  arrivals_of sched (@nil (string * FetchOutcome Sample)) = [].
Proof. unfold arrivals_of. induction sched as [|i sched IH]; [done|]. done. Qed.

Lemma Merger_well_keyed parts :
  Forall well_keyed parts -> well_keyed (Merger parts).
Proof.
  intros Hparts n mf. rewrite Merger_lookup. unfold families_named.
  induction Hparts as [|part parts Hpart _ IH]; [done|]. cbn.
  destruct (part !! n) as [f|] eqn:Hf; [|exact IH].
  intros [= <-]. change (MetricFamily_GetName f = n). by apply Hpart.
Qed.

Lemma deduplicate_all_well_keyed mfs :
  well_keyed mfs -> well_keyed (deduplicate_all mfs).
Proof.
  intros Hk n mf. rewrite deduplicate_all_lookup.
  destruct (mfs !! n) as [f|] eqn:Hf; [|done].
  intros [= <-]. change (MetricFamily_GetName f = n). by apply Hk.
Qed.

(** The family set of a run is keyed by the names when the parts are. *)
Lemma merged_set_well_keyed (d : bool) arrivals :
  Forall well_keyed (parts_of arrivals) -> well_keyed (merged_set d arrivals).
Proof.
  intros Hparts. rewrite merged_set_Merger.
  destruct d; [apply deduplicate_all_well_keyed|]; by apply Merger_well_keyed.
Qed.

Lemma well_keyed_names mfs (names : list string) :
  well_keyed mfs -> (forall n, n ∈ names -> mfs !! n = Some (mfs !!! n)) ->
  MetricFamily_GetName <$> ((fun n => mfs !!! n) <$> names) = names.
Proof.
  intros Hk Hin. induction names as [|n names IH]; [done|]. cbn. f_equal.
  - apply Hk, Hin. left.
  - apply IH. intros k Hk'. apply Hin. by right.
Qed.

Lemma StronglySorted_take {A} (R : relation A) (l : list A) (k : nat) :
  StronglySorted R l -> StronglySorted R (take k l).
Proof.
  intros Hl. revert k. induction Hl as [|x l Hl IH Hx]; intros [|k]; cbn;
    try constructor; [apply IH|].
  by apply Forall_take.
Qed.

End run_props.

Lemma Merge_net_ext {Sample W}
    (Encode : W -> MetricFamily Sample -> W * option string) (h : Handler)
    (net net' : nat -> string -> FetchOutcome Sample) (sched : list nat) :
  (forall i u, net i u = net' i u) ->
  Merge Encode h net sched = Merge Encode h net' sched.
Proof.
  intros Hnet. unfold Merge, tasks. f_equal. f_equal.
  apply imap_ext. intros i u _. cbn. by rewrite Hnet.
Qed.

(** C5 (amended).  A task whose [Get] returned an error or whose body did
    not parse contributes no family: the family set, the writer and the
    families encoded are those of the run with the other tasks alone.  The
    status of a response is not looked at: a task counts among the others
    exactly when its body parsed, whatever the status, and runs whose
    responses differ in their status only are the same.  When every task
    failed in this sense the writer is left as it was, nothing is encoded and
    the log gains the fetch errors only; with no exporter configured [Merge]
    changes nothing at all. *)
Theorem failed_sources_contribute_nothing {Sample W}
    (Encode : W -> MetricFamily Sample -> W * option string)
    (h : Handler) (net : nat -> string -> FetchOutcome Sample)
    (gets gets' : nat -> string -> GetResult Sample)
    (sched : list nat) (d : bool)
    (arrivals : list (string * FetchOutcome Sample)) (w : World Sample W) :
  let ok := filter (fun t => succeeded t = true) arrivals in
  parts_of arrivals = parts_of ok
  /\ merged_set d arrivals = merged_set d ok
  /\ w_out (Merge_arrivals Encode d arrivals w).2
     = w_out (Merge_arrivals Encode d ok w).2
  /\ w_encoded (Merge_arrivals Encode d arrivals w).2
     = w_encoded (Merge_arrivals Encode d ok w).2
  /\ (Forall (fun t => succeeded t = false) arrivals ->
      Merge_arrivals Encode d arrivals w =
      (tt, {| w_out := w_out w; w_encoded := w_encoded w;
              w_log := w_log w ++ fetch_errors arrivals |}))
  /\ (Exporters h = [] -> Merge Encode h net sched w = (tt, w))
  /\ (forall (u : string) (g : GetResult Sample),
        succeeded (u, outcome_of g) = true <->
        exists status part, g = Response status (Families part))
  /\ (forall (status status' : Z) (body : BodyParse Sample),
        outcome_of (Response status body) = outcome_of (Response status' body))
  /\ ((forall i u, outcome_of (gets i u) = outcome_of (gets' i u)) ->
      Merge_http Encode h gets sched w = Merge_http Encode h gets' sched w).
Proof.
  cbn zeta.
  assert (merged_set d arrivals
          = merged_set d (filter (fun t => succeeded t = true) arrivals)) as Hm.
  { by rewrite !merged_set_Merger, parts_of_succeeded. }
  split; [by rewrite parts_of_succeeded|]. split; [done|].
  split; [by rewrite !Merge_arrivals_run, Hm|].
  split; [by rewrite !Merge_arrivals_run, Hm|].
  split.
  { intros Hfail. rewrite Merge_arrivals_run.
    rewrite (merged_set_no_parts d arrivals) by by apply parts_of_failed.
    cbn zeta. rewrite sorted_names_empty. cbn. by rewrite !app_nil_r. }
  split.
  { intros Hnil. unfold Merge, tasks. rewrite Hnil. cbn [imap].
    rewrite arrivals_of_nil, Merge_arrivals_run.
    rewrite (merged_set_no_parts _ []) by done.
    cbn zeta. rewrite sorted_names_empty. cbn. rewrite !app_nil_r. by destruct w. }
  split.
  { intros u g. split.
    - destruct g as [err|status [err|part]]; try done. intros _. by eexists _, _.
    - by intros (status & part & ->). }
  split; [by intros status status' [err|part]|].
  intros Hsame. unfold Merge_http. by rewrite (Merge_net_ext _ _ _ _ _ Hsame).
Qed.

(** C6.  Whatever the order [ks] in which the names of the family set are
    collected, the encoder is given the families in strictly ascending
    bytewise order of their names: the names [sort.Strings] yields are the
    keys of the set, each once, strictly increasing, and they depend on the
    key set only.  The families encoded are those stored under the first
    names of that list, each as it is stored, and all of them when no write
    is rejected.  When every family is stored under its own name, the names of
    the families encoded are strictly increasing.  What is encoded follows
    from what [Encode] returns: when it accepts every write, the run ends
    with all the families encoded, the writer as these writes leave it and
    nothing logged; and each family is encoded, at its place in the order,
    when the writes of the families before it were accepted. *)
Theorem serializer_emits_in_name_order {Sample W}
    (Encode : W -> MetricFamily Sample -> W * option string)
    (mfs : gmap string (MetricFamily Sample)) (ks : list string)
    (w : World Sample W) :
  ks ≡ₚ (map_to_list mfs).*1 ->
  let names := sort_Strings ks in
  let r := (encode_loop Encode mfs names w).2 in
  names = sorted_names mfs
  /\ StronglySorted string_lt names
  /\ (forall n, n ∈ names <-> is_Some (mfs !! n))
  /\ (forall mfs' : gmap string (MetricFamily Sample),
        dom mfs' = dom mfs -> sorted_names mfs' = names)
  /\ (exists k : nat,
        w_encoded r = w_encoded w ++ ((fun n => mfs !!! n) <$> take k names))
  /\ (forall n, n ∈ names -> mfs !! n = Some (mfs !!! n))
  /\ (w_log r = w_log w ->
        w_encoded r = w_encoded w ++ ((fun n => mfs !!! n) <$> names))
  /\ (well_keyed mfs ->
        StronglySorted string_lt
          (MetricFamily_GetName <$> drop (length (w_encoded w)) (w_encoded r)))
  /\ ((forall i mf, ((fun n => mfs !!! n) <$> names) !! i = Some mf ->
         (Encode (writer_after Encode (w_out w)
                    ((fun n => mfs !!! n) <$> names) i) mf).2 = None) ->
      r = {| w_out := writer_after Encode (w_out w)
                        ((fun n => mfs !!! n) <$> names) (length names);
             w_encoded := w_encoded w ++ ((fun n => mfs !!! n) <$> names);
             w_log := w_log w |})
  /\ (forall (k : nat) mf,
        ((fun n => mfs !!! n) <$> names) !! k = Some mf ->
        (forall i mf', (i < k)%nat ->
           ((fun n => mfs !!! n) <$> names) !! i = Some mf' ->
           (Encode (writer_after Encode (w_out w)
                      ((fun n => mfs !!! n) <$> names) i) mf').2 = None) ->
        w_encoded r !! (length (w_encoded w) + k)%nat = Some mf).
Proof.
  intros Hks. cbn zeta. rewrite (sorted_names_any_order mfs ks Hks).
  split; [done|]. split; [apply sorted_names_strict|].
  split; [apply elem_of_sorted_names|].
  split; [intros mfs' Hdom; by apply sorted_names_dom|].
  rewrite encode_loop_emit. cbn.
  split; [|split; [apply lookup_total_sorted_names|split; [|split; [|split]]]].
  - exists (length (emit Encode (w_out w)
                ((fun n => mfs !!! n) <$> sorted_names mfs)).1.2).
    rewrite fmap_take. f_equal. apply prefix_take_length, emit_prefix.
  - intros Hlog. f_equal. apply emit_complete.
    destruct (emit Encode (w_out w) _).2 as [e|] eqn:He; [|done].
    cbn in Hlog. rewrite <- (app_nil_r (w_log w)) in Hlog at 2.
    by apply app_inv_head in Hlog.
  - intros Hk. rewrite drop_app_length.
    rewrite (prefix_take_length _ _ (emit_prefix Encode (w_out w)
               ((fun n => mfs !!! n) <$> sorted_names mfs))).
    rewrite <- !fmap_take.
    rewrite well_keyed_names; [|done|].
    + apply StronglySorted_take, sorted_names_strict.
    + intros n Hn%elem_of_take. destruct Hn as (i & Hi & _).
      apply lookup_total_sorted_names. by eapply list_elem_of_lookup_2.
  - intros Hacc. rewrite (emit_accepted Encode _ _ Hacc). cbn.
    by rewrite length_fmap, app_nil_r.
  - intros k mf Hk Hacc. rewrite lookup_app_r by lia.
    replace (length (w_encoded w) + k - length (w_encoded w))%nat with k by lia.
    by apply emit_reaches.
Qed.

(** C7 (amended).  When [enc.Encode] returns an error for the family of name
    [n], after the families of the names [pre] before it were written, the
    error is logged and [Merge] returns, with no value: the writer is left as
    the rejected write left it, on top of the earlier writes; the families
    of [pre] and of [n] were passed to the encoder once each, in this order,
    and none of the names [post] after [n]. *)
Theorem write_error_is_logged_and_ends_the_run {Sample W}
    (Encode : W -> MetricFamily Sample -> W * option string)
    (d : bool) (arrivals : list (string * FetchOutcome Sample))
    (w : World Sample W) (pre post : list string) (n : string)
    (out1 out2 : W) (e : string) :
  let mfs := merged_set d arrivals in
  sorted_names mfs = pre ++ n :: post ->
  emit Encode (w_out w) ((fun k => mfs !!! k) <$> pre)
    = (out1, (fun k => mfs !!! k) <$> pre, None) ->
  Encode out1 (mfs !!! n) = (out2, Some e) ->
  Merge_arrivals Encode d arrivals w =
  (tt, {| w_out := out2;
          w_encoded := w_encoded w ++ ((fun k => mfs !!! k) <$> pre) ++ [mfs !!! n];
          w_log := w_log w ++ fetch_errors arrivals ++ [LogEncodeFailed e] |}).
Proof.
  cbn zeta. intros Hnames Hpre Hn. rewrite Merge_arrivals_run. cbn zeta.
  rewrite Hnames, fmap_app, fmap_cons.
  by rewrite (emit_app_fail Encode _ _ _ _ _ _ _ Hpre Hn).
Qed.

(* ===================================================================== *)
(** * The order of completion of the fetch tasks *)
(* ===================================================================== *)



Section order_props.
Context {Sample W : Type}.
Context (Encode : W -> MetricFamily Sample -> W * option string).
Implicit Types (fams : list (MetricFamily Sample)).
Implicit Types (parts : list (gmap string (MetricFamily Sample))).
Implicit Types (arrivals : list (string * FetchOutcome Sample)).

Lemma merged_family_Metric fams mf :
  merged_family fams = Some mf -> mf_Metric mf = concat (mf_Metric <$> fams).
Proof. destruct fams as [|f fs]; [done|]. by intros [= <-]. Qed.




Lemma parts_of_perm arrivals1 arrivals2 :
  arrivals1 ≡ₚ arrivals2 -> parts_of arrivals1 ≡ₚ parts_of arrivals2.
Proof. intros Hp. unfold parts_of. by rewrite Hp. Qed.

Lemma fetch_errors_perm arrivals1 arrivals2 :
  arrivals1 ≡ₚ arrivals2 -> fetch_errors arrivals1 ≡ₚ fetch_errors arrivals2.
Proof. intros Hp. unfold fetch_errors. by rewrite Hp. Qed.





End order_props.


(* ===================================================================== *)
(** * The fetch timeout *)
(* ===================================================================== *)

Lemma forallb_imap_true {A B} (p : B -> bool) (g : nat -> A -> B) (l : list A) :
  forallb p (imap g l) = true ->
  forall i u, l !! i = Some u -> p (g i u) = true.
Proof.
  intros Hall i u Hu. rewrite forallb_forall in Hall. apply Hall.
  apply list_elem_of_In. by apply (elem_of_lookup_imap_2 g).
Qed.

Lemma forallb_imap_false {A B} (p : B -> bool) (g : nat -> A -> B) (l : list A) :
  forallb p (imap g l) = false ->
  exists i u, l !! i = Some u /\ p (g i u) = false.
Proof.
  revert g. induction l as [|x l IH]; intros g; [done|].
  cbn. intros [Hx|Hl]%andb_false_iff.
  - by exists 0%nat, x.
  - apply IH in Hl as (i & u & Hu & Hp). by exists (S i), u.
Qed.

Lemma forallb_imap_intro {A B} (p : B -> bool) (g : nat -> A -> B) (l : list A) :
  (forall i u, p (g i u) = true) -> forallb p (imap g l) = true.
Proof.
  intros Hp. revert g Hp. induction l as [|x l IH]; intros g Hp; [done|].
  cbn. rewrite Hp. cbn. apply IH. intros i u. apply Hp.
Qed.

Section timing_props.
Context {Sample W : Type}.
Context (Encode : W -> MetricFamily Sample -> W * option string).

Lemma Client_deadline_pos (d : Z) : 0 < d -> Client_deadline d = Some d.
Proof. intros Hd. unfold Client_deadline. by rewrite (proj2 (Z.ltb_lt 0 d)). Qed.

Lemma Client_deadline_nonpos (d : Z) : d <= 0 -> Client_deadline d = None.
Proof. intros Hd. unfold Client_deadline. by rewrite (proj2 (Z.ltb_ge 0 d)). Qed.

Lemma httpClientTimeout_in_range (h : Handler) :
  - 2 ^ 63 <= time_Second * ExportersHTTPTimeout h < 2 ^ 63 ->
  httpClientTimeout h = time_Second * ExportersHTTPTimeout h.
Proof.
  intros Hr. unfold httpClientTimeout, wrap64.
  rewrite Z.mod_small; lia.
Qed.

(** With a deadline every fetch returns, by the deadline at the latest. *)
Lemma fetch_with_deadline (d : Z) (r : Remote Sample) :
  0 < d -> exists t o, fetch d r = Some (t, o) /\ t <= d.
Proof.
  intros Hd. unfold fetch. rewrite (Client_deadline_pos d Hd).
  destruct r as [headers after o|].
  - destruct (Z.ltb_spec after d); eexists _, _; split; try done; lia.
  - eexists _, _; split; [done|lia].
Qed.

(** Without one, a fetch returns iff the endpoint answers. *)
Lemma fetch_without_deadline (d : Z) (r : Remote Sample) :
  d <= 0 -> fetch d r = None <-> r = Hangs.
Proof.
  intros Hd. unfold fetch. rewrite (Client_deadline_nonpos d Hd).
  by destruct r.
Qed.

Lemma Merge_timed_None (h : Handler) (remote : nat -> string -> Remote Sample)
    (sched : list nat) (w : World Sample W) :
  Merge_timed Encode h remote sched w = None <->
  exists i u, Exporters h !! i = Some u /\
    fetch (httpClientTimeout h) (remote i u) = None.
Proof.
  unfold Merge_timed, fetches.
  destruct (forallb _ _) eqn:Hall.
  - split; [done|]. intros (i & u & Hu & Hf). exfalso.
    apply (forallb_imap_true _ _ _ Hall) in Hu. rewrite Hf in Hu. done.
  - split; [|done]. intros _.
    apply forallb_imap_false in Hall as (i & u & Hu & Hf).
    exists i, u. split; [done|].
    destruct (fetch _ _); [|done]. done.
Qed.

End timing_props.

(** C4 (amended).  [Merge] hands [ExportersHTTPTimeout] seconds to the HTTP
    client as the timeout, whatever the value.  For a positive number of
    seconds that fits [int64] nanoseconds, every fetch returns by that time
    and [Merge] returns.  For zero the client is given a zero timeout and
    sets no deadline: [Merge] blocks exactly when some source never
    answers. *)
Theorem timeout_bounds_fetch_when_positive {Sample W}
    (Encode : W -> MetricFamily Sample -> W * option string)
    (h : Handler) (remote : nat -> string -> Remote Sample)
    (sched : list nat) (w : World Sample W) :
  (0 < ExportersHTTPTimeout h ->
   time_Second * ExportersHTTPTimeout h < 2 ^ 63 ->
     httpClientTimeout h = time_Second * ExportersHTTPTimeout h
     /\ (forall r : Remote Sample, exists t o,
           fetch (httpClientTimeout h) r = Some (t, o)
           /\ t <= time_Second * ExportersHTTPTimeout h)
     /\ Merge_timed Encode h remote sched w
        = Some (Merge Encode h (net_of h remote) sched w))
  /\ (ExportersHTTPTimeout h = 0 ->
     httpClientTimeout h = 0
     /\ Client_deadline (httpClientTimeout h) = None
     /\ (Merge_timed Encode h remote sched w = None <->
         exists i u, Exporters h !! i = Some u /\ remote i u = Hangs)).
Proof.
  split.
  - intros Hpos Hfit.
    assert (httpClientTimeout h = time_Second * ExportersHTTPTimeout h) as Ht.
    { apply httpClientTimeout_in_range. unfold time_Second in *. lia. }
    assert (0 < httpClientTimeout h) as Hd.
    { rewrite Ht. unfold time_Second. lia. }
    split; [done|]. split.
    + intros r. rewrite <- Ht. by apply fetch_with_deadline.
    + unfold Merge_timed, fetches. rewrite forallb_imap_intro; [done|].
      intros i u. destruct (fetch_with_deadline _ (remote i u) Hd)
        as (t & o & -> & _). done.
  - intros Hzero.
    assert (httpClientTimeout h = 0) as Ht.
    { unfold httpClientTimeout. by rewrite Hzero. }
    split; [done|]. split; [by rewrite Ht|].
    rewrite Merge_timed_None. rewrite Ht.
    split; intros (i & u & Hu & Hr); exists i, u; split; try done.
    + by apply (fetch_without_deadline 0).
    + by apply (fetch_without_deadline 0).
Qed.

(* ===================================================================== *)
(** * The claims at concrete runs *)
(* ===================================================================== *)

Example labelSignature_sorts_the_pairs :
  labelSignature [lp "method" "GET"; lp "code" "200"] = "code=200,method=GET".
Proof. by vm_compute. Qed.

Example labelSignature_of_no_labels : labelSignature [] = "".
Proof. by vm_compute. Qed.

(** Disjoint label sets: both series are written, in source order, with
    deduplication on; the unreachable third source is only logged. *)
Example merge_of_disjoint_label_sets :
  Merge test_Encode
    (mkHandler ["http://one/metrics"; "http://two/metrics"; "http://three/metrics"]
       10 true)
    requests_net [0; 1; 2]%nat (test_world 9)
  = (tt, {| w_out := mkTestWriter
              [("http_requests_total",
                [series [lp "method" "GET"] 3; series [lp "method" "POST"] 4])] 8;
            w_encoded :=
              [family "http_requests_total" "requests" COUNTER
                 [series [lp "method" "GET"] 3; series [lp "method" "POST"] 4]];
            w_log := [LogGetFailed "http://three/metrics" "no route to host"] |}).
Proof. by vm_compute. Qed.

(** The same label set with two values: without deduplication both series
    are written, the first-seen help text is kept. *)
Example merge_keeps_duplicates_without_deduplication :
  w_encoded (Merge test_Encode (test_handler 10 false) test_net
               [0; 1]%nat (test_world 9)).2
  = [go_threads;
     family "up" "one" GAUGE
       [series [lp "instance" "a"] 1; series [lp "instance" "a"] 0]].
Proof. by vm_compute. Qed.


(** Three series, the third with the labels of the first in another order:
    the first two are kept, with their different labels, and the third goes. *)
Lemma deduplicate_keeps_first_occurrences_witness :
  retained (mf_Metric requests_family) 1 = true
  /\ retained (mf_Metric requests_family) 2 = false
  /\ signature_of (series [lp "method" "GET"; lp "code" "200"] 3)
     = canonical_signature [lp "method" "GET"; lp "code" "200"].
Proof.
  destruct (deduplicate_keeps_first_occurrences requests_family ∅ "")
    as (_ & _ & _ & _ & _ & _ & _ & _ & _ & _ & Hcanon & _ & _ & Hplain).
  assert (Forall (fun m : Metric Z => Forall plain_label (m_Label m))
            (mf_Metric requests_family)) as Hlabels.
  { repeat constructor. }
  split; [|split].
  - apply (Hplain Hlabels 1%nat).
    exists (series [lp "method" "POST"; lp "code" "200"] 4). split; [reflexivity|].
    intros [|j] m' Hj Hm'; [|lia]. injection Hm' as <-. intros Hp.
    apply Permutation_length_2_inv in Hp as [Hp|Hp]; discriminate.
  - destruct (retained (mf_Metric requests_family) 2) eqn:Hret; [|reflexivity].
    apply (Hplain Hlabels 2%nat) in Hret as (m & Hm & Hearlier).
    injection Hm as <-. exfalso.
    apply (Hearlier 0%nat (series [lp "method" "GET"; lp "code" "200"] 3));
      [lia|reflexivity|apply perm_swap].
  - apply Hcanon.
Defined.



(** C4, as stated, fails: with a timeout of zero the HTTP client is given no
    deadline, and [Merge] does not return when a source never answers. *)
Lemma zero_timeout_leaves_fetch_unbounded :
  httpClientTimeout (test_handler 0 false) = 0
  /\ Client_deadline (httpClientTimeout (test_handler 0 false)) = None
  /\ fetch (httpClientTimeout (test_handler 0 false)) (@Hangs Z) = None
  /\ Merge_timed test_Encode (test_handler 0 false) (fun _ _ => Hangs)
       [0; 1]%nat (test_world 9) = None.
Proof. repeat split; by vm_compute. Qed.

(** Ten seconds against sources that never answer: [Merge] returns; zero
    seconds: it does not. *)
Lemma timeout_bounds_fetch_when_positive_witness :
  Merge_timed test_Encode (test_handler 10 false) (fun _ _ => Hangs)
    [0; 1]%nat (test_world 9)
  = Some (Merge test_Encode (test_handler 10 false)
            (net_of (test_handler 10 false) (fun _ _ => Hangs))
            [0; 1]%nat (test_world 9))
  /\ (Merge_timed test_Encode (test_handler 0 false) (fun _ _ => Hangs)
        [0; 1]%nat (test_world 9) = None <->
      exists i u, Exporters (test_handler 0 false) !! i = Some u
                  /\ (fun _ _ => @Hangs Z) i u = Hangs).
Proof.
  split.
  - apply (timeout_bounds_fetch_when_positive test_Encode (test_handler 10 false)
             (fun _ _ => Hangs) [0; 1]%nat (test_world 9)).
    + reflexivity.
    + reflexivity.
  - apply (timeout_bounds_fetch_when_positive test_Encode (test_handler 0 false)
             (fun _ _ => Hangs) [0; 1]%nat (test_world 9)).
    reflexivity.
Defined.

(** Both sources down; no source at all; the statuses 200 and 500. *)
Lemma failed_sources_contribute_nothing_witness :
  Merge_arrivals test_Encode true
    (arrivals_of [1; 0]%nat (tasks (test_handler 10 true) down_net)) (test_world 9)
  = (tt, {| w_out := mkTestWriter [] 9; w_encoded := [];
            w_log := [LogParseFailed "http://two/metrics" "text format parsing error";
                      LogGetFailed "http://one/metrics" "connection refused"] |})
  /\ Merge test_Encode (mkHandler [] 10 true) test_net [] (test_world 9)
     = (tt, test_world 9)
  /\ Merge_http test_Encode (test_handler 10 true) (status_gets 200)
       [1; 0]%nat (test_world 9)
     = Merge_http test_Encode (test_handler 10 true) (status_gets 500)
         [1; 0]%nat (test_world 9).
Proof.
  split; [|split].
  - apply (failed_sources_contribute_nothing test_Encode (test_handler 10 true)
             down_net (status_gets 200) (status_gets 500) [1; 0]%nat true
             (arrivals_of [1; 0]%nat (tasks (test_handler 10 true) down_net))
             (test_world 9)).
    repeat constructor.
  - apply (failed_sources_contribute_nothing test_Encode (mkHandler [] 10 true)
             test_net (status_gets 200) (status_gets 500) [] true []
             (test_world 9)).
    reflexivity.
  - apply (failed_sources_contribute_nothing test_Encode (test_handler 10 true)
             down_net (status_gets 200) (status_gets 500) [1; 0]%nat true []
             (test_world 9)).
    intros i u. reflexivity.
Defined.

(** C5, as stated, fails: a source that answers with the status 500, a
    failed fetch in the words of the specification, and with a body that
    parses contributes the families of that body. *)
Lemma source_with_status_500_contributes :
  fetch_failure (status_gets 500 0%nat "http://one/metrics") = true
  /\ w_encoded (Merge_http test_Encode (mkHandler ["http://one/metrics"] 10 false)
                  (status_gets 500) [0]%nat (test_world 9)).2 = [up_one]
  /\ tw_blocks (w_out (Merge_http test_Encode
                         (mkHandler ["http://one/metrics"] 10 false)
                         (status_gets 500) [0]%nat (test_world 9)).2)
     = [("up", [series [lp "instance" "a"] 1])]
  /\ w_log (Merge_http test_Encode (mkHandler ["http://one/metrics"] 10 false)
              (status_gets 500) [0]%nat (test_world 9)).2 = [].
Proof. repeat split; by vm_compute. Qed.

(** The names collected as [up], [go_threads], and a writer with room for
    both blocks: [go_threads] is encoded first, then [up]. *)
Lemma serializer_emits_in_name_order_witness :
  sort_Strings ["up"; "go_threads"]
  = sorted_names ({[ "up" := up_two; "go_threads" := go_threads ]}
                    : gmap string (MetricFamily Z))
  /\ StronglySorted string_lt (sort_Strings ["up"; "go_threads"])
  /\ (encode_loop test_Encode
        ({[ "up" := up_two; "go_threads" := go_threads ]}
           : gmap string (MetricFamily Z))
        (sort_Strings ["up"; "go_threads"]) (test_world 9)).2
     = {| w_out := mkTestWriter
                     [("go_threads", [series [] 7]);
                      ("up", [series [lp "instance" "a"] 0])] 7;
          w_encoded := [go_threads; up_two];
          w_log := [] |}.
Proof.
  destruct (serializer_emits_in_name_order test_Encode
              ({[ "up" := up_two; "go_threads" := go_threads ]}
                 : gmap string (MetricFamily Z))
              ["up"; "go_threads"] (test_world 9))
    as (H1 & H2 & _ & _ & _ & _ & _ & _ & Hall & _).
  - vm_compute. reflexivity || apply perm_swap.
  - split; [exact H1|]. split; [exact H2|].
    rewrite Hall; [by vm_compute|].
    intros [|[|i]] mf Hi; vm_compute in Hi; [| |discriminate];
      injection Hi as <-; by vm_compute.
Defined.

(** A writer with room for one block: [go_threads] is written, [up] is cut
    short, the error is logged. *)
Lemma write_error_is_logged_and_ends_the_run_witness :
  Merge_arrivals test_Encode false
    (arrivals_of [0; 1]%nat (tasks (test_handler 10 false) test_net)) (test_world 1)
  = (tt, {| w_out := mkTestWriter [("go_threads", [series [] 7]); ("up", [])] 0;
            w_encoded :=
              [go_threads;
               family "up" "one" GAUGE
                 [series [lp "instance" "a"] 1; series [lp "instance" "a"] 0]];
            w_log := [LogEncodeFailed "write: broken pipe"] |}).
Proof.
  apply (write_error_is_logged_and_ends_the_run test_Encode false
           (arrivals_of [0; 1]%nat (tasks (test_handler 10 false) test_net))
           (test_world 1) ["go_threads"] [] "up"
           (mkTestWriter [("go_threads", [series [] 7])] 0)
           (mkTestWriter [("go_threads", [series [] 7]); ("up", [])] 0)
           "write: broken pipe").
  - vm_compute. reflexivity.
  - vm_compute. reflexivity.
  - vm_compute. reflexivity.
Defined.

(** C7, as stated, fails: [Merge] returns no value, so a rejected write,
    which it logs, reaches its caller no more than an accepted one. *)
Lemma write_error_is_not_returned :
  LogEncodeFailed "write: broken pipe"
    ∈ w_log (Merge test_Encode (test_handler 10 false) test_net
               [0; 1]%nat (test_world 1)).2
  /\ w_log (Merge test_Encode (test_handler 10 false) test_net
              [0; 1]%nat (test_world 9)).2 = []
  /\ ~ exists surfaced : unit -> bool,
         surfaced (Merge test_Encode (test_handler 10 false) test_net
                     [0; 1]%nat (test_world 1)).1 = true
         /\ surfaced (Merge test_Encode (test_handler 10 false) test_net
                        [0; 1]%nat (test_world 9)).1 = false.
Proof.
  split; [vm_compute; left|]. split; [by vm_compute|].
  intros (surfaced & Hbad & Hok).
  destruct (Merge _ _ _ _ (test_world 1)).1, (Merge _ _ _ _ (test_world 9)).1.
  congruence.
Qed.

(* ===================================================================== *)
(** * Further properties: [labelSignature] *)
(* ===================================================================== *)

(** X1.  On labels whose names hold neither [=] nor [,] and whose values hold
    no [,], equal signatures mean the same label pairs, up to their order:
    there [labelSignature] identifies only what it is meant to identify. *)
Theorem labelSignature_injective_on_plain_labels (labels1 labels2 : list LabelPair) :
  Forall plain_label labels1 -> Forall plain_label labels2 ->
  labelSignature labels1 = labelSignature labels2 ->
  label_key <$> labels1 ≡ₚ label_key <$> labels2.
Proof.
  intros H1 H2 Heq. unfold labelSignature in Heq. cbn zeta in Heq.
  assert (forall l, Forall plain_label l ->
    Forall (fun s => has_char "," s = false /\ s <> "") (sort_Strings (label_part <$> l)))
    as Hparts.
  { intros l Hl. rewrite sort_Strings_perm. apply Forall_fmap.
    eapply Forall_impl; [exact Hl|]. intros p Hp. cbn.
    split; [by apply label_part_comma_free|apply label_part_nonempty]. }
  apply strings_Join_inj in Heq; [|by apply Hparts..].
  apply sort_Strings_eq_perm in Heq. rewrite !label_key_fmap_part in Heq.
  apply Permutation_map_inv in Heq as (k3 & Heq & Hp).
  rewrite Hp. replace k3 with (label_key <$> labels1); [done|].
  assert (forall l, Forall plain_label l ->
    Forall (fun k : string * string => has_char "=" k.1 = false) (label_key <$> l))
    as Hkeys.
  { intros l Hl. apply Forall_fmap. eapply Forall_impl; [exact Hl|].
    by intros p (Hp' & _). }
  apply key_parts_inj; [by apply Hkeys|by rewrite <- Hp; apply Hkeys|done].
Qed.

(** The pairs [a="1"] and [b="2"], in either order. *)
Lemma labelSignature_injective_on_plain_labels_witness :
  label_key <$> [lp "a" "1"; lp "b" "2"] ≡ₚ label_key <$> [lp "b" "2"; lp "a" "1"].
Proof.
  apply (labelSignature_injective_on_plain_labels
           [lp "a" "1"; lp "b" "2"] [lp "b" "2"; lp "a" "1"]).
  - repeat constructor.
  - repeat constructor.
  - vm_compute. reflexivity.
Defined.

(** X2.  The signature reads a label through its getters only: a missing
    name or value counts as the empty string, and the order of the labels
    does not count. *)
Theorem labelSignature_reads_the_getters (labels1 labels2 : list LabelPair) :
  label_key <$> labels1 ≡ₚ label_key <$> labels2 ->
  labelSignature labels1 = labelSignature labels2.
Proof.
  intros Hp. unfold labelSignature. cbn zeta. f_equal.
  apply sort_Strings_perm_eq. rewrite !label_key_fmap_part. by rewrite Hp.
Qed.

(** A label with no name and no value, and one with empty strings. *)
Lemma labelSignature_reads_the_getters_witness :
  labelSignature [mkLabelPair None None; lp "a" "1"]
  = labelSignature [lp "a" "1"; lp "" ""].
Proof.
  apply labelSignature_reads_the_getters. apply perm_swap.
Defined.

(* ===================================================================== *)
(** * Further properties: the Deduplicator *)
(* ===================================================================== *)

Lemma filter_none {A} (P : A -> Prop) `{forall x, Decision (P x)} (l : list A) :
  (forall x, x ∈ l -> ~ P x) -> filter P l = [].
Proof.
  induction l as [|x l IH]; intros Hl; [done|].
  rewrite filter_cons. destruct (decide (P x)) as [Hx|_].
  - exfalso. apply (Hl x); [left|done].
  - apply IH. intros y Hy. apply Hl. by right.
Qed.

Section dedup_more.
Context {Sample : Type}.
Implicit Types (m : Metric Sample) (a b ms : list (Metric Sample)).
Implicit Types (mf : MetricFamily Sample).

Lemma first_occurrences_app a b :
  first_occurrences (a ++ b) =
  first_occurrences a ++
    filter (fun m => signature_of m ∉ signature_of <$> a) (first_occurrences b).
Proof.
  induction b as [|m b IH] using rev_ind.
  - by rewrite first_occurrences_nil, filter_nil, !app_nil_r.
  - rewrite app_assoc, !first_occurrences_snoc, IH, filter_app, <- app_assoc.
    f_equal. f_equal. rewrite fmap_app.
    destruct (bool_decide_reflect (signature_of m ∈ signature_of <$> b)) as [Hb|Hb].
    + rewrite bool_decide_eq_true_2 by (apply elem_of_app; by right). done.
    + rewrite filter_cons, filter_nil.
      destruct (decide (signature_of m ∉ signature_of <$> a)) as [Ha|Ha].
      * rewrite bool_decide_eq_false_2; [done|].
        intros [?|?]%elem_of_app; done.
      * rewrite bool_decide_eq_true_2; [done|].
        apply elem_of_app. left. by apply dec_stable.
Qed.

Lemma first_occurrences_elem_of ms m :
  m ∈ first_occurrences ms -> m ∈ ms.
Proof. apply (sublist_subseteq _ _ (first_occurrences_sublist ms)). Qed.

(** Series whose signatures were all seen before add nothing. *)
Lemma first_occurrences_absorb a b :
  (forall m, m ∈ b -> signature_of m ∈ signature_of <$> a) ->
  first_occurrences (a ++ b) = first_occurrences a.
Proof.
  intros Hb. rewrite first_occurrences_app.
  rewrite filter_none; [by rewrite app_nil_r|].
  intros m Hm Hnew. apply Hnew, Hb. by apply first_occurrences_elem_of.
Qed.

Lemma first_occurrences_cons m ms :
  first_occurrences (m :: ms) =
  m :: filter (fun m' => signature_of m' ∉ [signature_of m]) (first_occurrences ms).
Proof. apply (first_occurrences_app [m] ms). Qed.

End dedup_more.

(** X3.  Deduplication of a series list cut in two: the first half is
    deduplicated as if alone, and of the deduplicated second half those
    series follow whose signature does not occur in the first half.  For a
    merged family this is the share of the later sources. *)
Theorem deduplicate_of_appended_series {Sample}
    (mf : MetricFamily Sample) (a b : list (Metric Sample)) :
  mf_Metric (deduplicateMetricFamily (set_Metric mf (a ++ b))) =
  mf_Metric (deduplicateMetricFamily (set_Metric mf a)) ++
    filter (fun m => signature_of m ∉ signature_of <$> a)
      (mf_Metric (deduplicateMetricFamily (set_Metric mf b))).
Proof.
  rewrite !deduplicateMetricFamily_Metric. cbn [mf_Metric set_Metric].
  apply first_occurrences_app.
Qed.

(** X4.  [deduplicateMetricFamily] returns a family unchanged exactly when no
    two of its series have the same signature. *)
Theorem deduplicate_fixes_distinct_signatures {Sample} (mf : MetricFamily Sample) :
  deduplicateMetricFamily mf = mf <-> NoDup (signature_of <$> mf_Metric mf).
Proof.
  split.
  - intros Heq. rewrite <- Heq, deduplicateMetricFamily_Metric.
    apply first_occurrences_NoDup.
  - intros Hnd. rewrite deduplicateMetricFamily_eq, first_occurrences_id by done.
    apply set_Metric_id.
Qed.

(** X5.  [deduplicateMetricFamily] always keeps the first series of a
    family, so it never turns a family with series into one without; it
    never lengthens the series list, and leaves an empty one empty. *)
Theorem deduplicate_keeps_the_head {Sample} (mf : MetricFamily Sample) :
  head (mf_Metric (deduplicateMetricFamily mf)) = head (mf_Metric mf)
  /\ (length (mf_Metric (deduplicateMetricFamily mf)) <= length (mf_Metric mf))%nat
  /\ (mf_Metric (deduplicateMetricFamily mf) = [] <-> mf_Metric mf = []).
Proof.
  rewrite deduplicateMetricFamily_Metric.
  split; [|split].
  - destruct (mf_Metric mf) as [|m ms]; [done|].
    by rewrite first_occurrences_cons.
  - apply sublist_length, first_occurrences_sublist.
  - destruct (mf_Metric mf) as [|m ms]; [done|].
    by rewrite first_occurrences_cons.
Qed.

(** X6.  In a family whose series all have the signature of the first, as
    when none of them has a label, only the first series is kept. *)
Theorem deduplicate_of_one_signature {Sample}
    (mf : MetricFamily Sample) (m : Metric Sample) (ms : list (Metric Sample)) :
  mf_Metric mf = m :: ms ->
  (forall m', m' ∈ ms -> signature_of m' = signature_of m) ->
  mf_Metric (deduplicateMetricFamily mf) = [m].
Proof.
  intros Hmf Hsame. rewrite deduplicateMetricFamily_Metric, Hmf.
  apply (first_occurrences_absorb [m] ms). intros m' Hm'.
  rewrite (Hsame _ Hm'). cbn. left.
Qed.

(** Three series without labels. *)
Lemma deduplicate_of_one_signature_witness :
  mf_Metric (deduplicateMetricFamily
               (family "go_threads" "" GAUGE [series [] 7; series [] 8; series [] 9]))
  = [series [] 7].
Proof.
  apply (deduplicate_of_one_signature _ (series [] 7) [series [] 8; series [] 9]).
  - reflexivity.
  - intros m' Hm'. apply list_elem_of_In in Hm'. cbn in Hm'.
    destruct Hm' as [<-|[<-|[]]]; reflexivity.
Defined.

(* ===================================================================== *)
(** * Further properties: the Family Merger *)
(* ===================================================================== *)

Section merge_more.
Context {Sample : Type}.
Implicit Types (mf f : MetricFamily Sample) (m : Metric Sample).
Implicit Types (fams : list (MetricFamily Sample)).
Implicit Types (parts : list (gmap string (MetricFamily Sample))).
Implicit Types (rs : list (option (gmap string (MetricFamily Sample)))).

Lemma merged_family_is_Some fams :
  is_Some (merged_family fams) <-> exists f, f ∈ fams.
Proof.
  destruct fams as [|f fs]; cbn.
  - split; [by intros [? ?]|]. by intros [? ?%elem_of_nil].
  - split; [|by eexists]. intros _. exists f. left.
Qed.

Lemma elem_of_concat_Metric fams m :
  m ∈ concat (mf_Metric <$> fams) <-> exists f, f ∈ fams /\ m ∈ mf_Metric f.
Proof.
  rewrite list_elem_of_In, in_concat. split.
  - intros (l & Hl & Hm). apply list_elem_of_In, list_elem_of_fmap in Hl
      as (f & -> & Hf). exists f. split; [done|]. by apply list_elem_of_In.
  - intros (f & Hf & Hm). exists (mf_Metric f).
    rewrite <- !list_elem_of_In. split; [|done]. by apply list_elem_of_fmap_2.
Qed.

Lemma elem_of_responses_named rs n f :
  f ∈ omap (fun r => r ≫= (.!! n)) rs <->
  exists part, Some part ∈ rs /\ part !! n = Some f.
Proof.
  rewrite list_elem_of_omap. split.
  - intros ([part|] & Hr & Hf); [|done]. by exists part.
  - intros (part & Hr & Hf). by exists (Some part).
Qed.

Lemma merged_family_app_merged fams1 fams2 :
  merged_family (option_list (merged_family fams1) ++ fams2)
  = merged_family (fams1 ++ fams2).
Proof.
  destruct fams1 as [|f fs]; [done|]. cbn.
  by rewrite fmap_app, concat_app, app_assoc.
Qed.

Lemma first_occurrences_absorb_middle (a dup b : list (Metric Sample)) :
  (forall m, m ∈ dup -> signature_of m ∈ signature_of <$> a) ->
  first_occurrences (a ++ dup ++ b) = first_occurrences (a ++ b).
Proof.
  intros Hdup. induction b as [|m b IH] using rev_ind.
  - rewrite !app_nil_r. by apply first_occurrences_absorb.
  - rewrite !app_assoc, !first_occurrences_snoc, <- !app_assoc, IH.
    f_equal. rewrite !fmap_app.
    apply (f_equal (fun c : bool => if c then [] else [m])), bool_decide_ext.
    rewrite !elem_of_app. split; [|naive_solver].
    intros [?|[Hin|?]]; [by left| |by right].
    left. apply list_elem_of_fmap in Hin as (m' & -> & Hm'). by apply Hdup.
Qed.

End merge_more.

(** X7.  The merge loses and invents nothing: a name is in the merged set
    exactly when some ranged-over part has it, and a series is in the merged
    family of a name exactly when it is a series of the family of that name
    in some part. *)
Theorem merge_keeps_every_family_and_series {Sample}
    (rs : list (option (gmap string (MetricFamily Sample)))) (n : string) :
  (is_Some (merge_responses rs !! n) <->
     exists part, Some part ∈ rs /\ is_Some (part !! n))
  /\ (forall mf m, merge_responses rs !! n = Some mf ->
        (m ∈ mf_Metric mf <->
         exists part f, Some part ∈ rs /\ part !! n = Some f /\ m ∈ mf_Metric f)).
Proof.
  rewrite merge_responses_lookup. split.
  - rewrite merged_family_is_Some. split.
    + intros (f & (part & Hr & Hf)%elem_of_responses_named). by exists part.
    + intros (part & Hr & [f Hf]). exists f.
      apply elem_of_responses_named. by exists part.
  - intros mf m Hmf. rewrite (merged_family_Metric _ _ Hmf).
    rewrite elem_of_concat_Metric. split.
    + intros (f & (part & Hr & Hf)%elem_of_responses_named & Hm). by exists part, f.
    + intros (part & f & Hr & Hf & Hm). exists f. split; [|done].
      apply elem_of_responses_named. by exists part.
Qed.

(** X8.  Merging in stages: the merge of an already merged set with further
    parts is the merge of all the parts at once. *)
Theorem merge_of_a_merged_set {Sample}
    (rs1 rs2 : list (option (gmap string (MetricFamily Sample)))) :
  merge_responses (Some (merge_responses rs1) :: rs2) = merge_responses (rs1 ++ rs2).
Proof.
  apply map_eq. intros n. rewrite !merge_responses_lookup, omap_app. cbn.
  rewrite merge_responses_lookup.
  rewrite <- merged_family_app_merged.
  by destruct (merged_family (omap (fun r => r ≫= (.!! n)) rs1)).
Qed.

(** X9.  A source whose payload parses to no family at all leaves a run as
    it is without that source: writer, families encoded and log. *)
Theorem empty_payload_changes_nothing {Sample W}
    (Encode : W -> MetricFamily Sample -> W * option string) (d : bool)
    (a1 a2 : list (string * FetchOutcome Sample)) (u : string)
    (w : World Sample W) :
  Merge_arrivals Encode d (a1 ++ (u, Parsed ∅) :: a2) w
  = Merge_arrivals Encode d (a1 ++ a2) w.
Proof.
  rewrite !Merge_arrivals_run.
  assert (fetch_errors (a1 ++ (u, Parsed ∅) :: a2) = fetch_errors (a1 ++ a2)) as ->.
  { unfold fetch_errors. by rewrite !omap_app. }
  assert (merged_set d (a1 ++ (u, Parsed ∅) :: a2) = merged_set d (a1 ++ a2)) as ->;
    [|done].
  rewrite !merged_set_Merger.
  assert (Merger (parts_of (a1 ++ (u, Parsed ∅) :: a2))
          = Merger (parts_of (a1 ++ a2))) as ->; [|done].
  apply map_eq. intros n. rewrite !Merger_lookup. f_equal.
  unfold families_named, parts_of. rewrite !omap_app. cbn.
  by rewrite lookup_empty.
Qed.

(** X10.  With deduplication, a part that was merged before adds nothing when
    it is merged again: an exporter that is listed twice and answers the same
    both times counts once. *)
Theorem repeated_part_is_deduplicated_away {Sample}
    (parts1 parts2 : list (gmap string (MetricFamily Sample)))
    (part : gmap string (MetricFamily Sample)) :
  part ∈ parts1 ->
  deduplicate_all (merge_responses (Some <$> (parts1 ++ part :: parts2)))
  = deduplicate_all (merge_responses (Some <$> (parts1 ++ parts2))).
Proof.
  intros Hin. rewrite <- !Merger_merge_responses.
  apply map_eq. intros n. rewrite !deduplicate_all_lookup, !Merger_lookup.
  unfold families_named. rewrite !omap_app. cbn.
  destruct (part !! n) as [f|] eqn:Hf; [|done].
  assert (f ∈ omap (fun p : gmap string (MetricFamily Sample) => p !! n) parts1)
    as Hfin.
  { apply list_elem_of_omap. by exists part. }
  destruct (omap (fun p : gmap string (MetricFamily Sample) => p !! n) parts1)
    as [|f0 fs] eqn:Hfams; [by apply elem_of_nil in Hfin|].
  cbn. f_equal. rewrite !deduplicateMetricFamily_eq. cbn [mf_Metric set_Metric].
  rewrite !set_Metric_set_Metric. f_equal.
  rewrite !fmap_app, !concat_app, !app_assoc. cbn.
  rewrite <- !app_assoc. rewrite app_assoc.
  rewrite (app_assoc (mf_Metric f0) (concat (mf_Metric <$> fs))).
  apply first_occurrences_absorb_middle.
  intros m Hm. apply list_elem_of_fmap_2.
  change (m ∈ concat (mf_Metric <$> (f0 :: fs))).
  apply elem_of_concat_Metric. by exists f.
Qed.

(** The part of the first source, merged a second time after the second. *)
Lemma repeated_part_is_deduplicated_away_witness :
  deduplicate_all (merge_responses (Some <$>
    ([ {[ "up" := up_one ]} ] ++ {[ "up" := up_one ]} :: [ {[ "up" := up_two ]} ])))
  = deduplicate_all (merge_responses (Some <$>
    ([ {[ "up" := up_one ]} ] ++ [ {[ "up" := up_two ]} ]))).
Proof.
  apply (repeated_part_is_deduplicated_away
           [ {[ "up" := up_one ]} ] [ {[ "up" := up_two ]} ] {[ "up" := up_one ]}).
  left.
Defined.

(* ===================================================================== *)
(** * Further properties: runs of [Merge] *)
(* ===================================================================== *)

Section run_more.
Context {Sample W : Type}.
Context (Encode : W -> MetricFamily Sample -> W * option string).
Implicit Types (w : World Sample W).
Implicit Types (arrivals : list (string * FetchOutcome Sample)).

(** The encoder is only ever given families that are stored in the set. *)
Lemma new_encoded_are_stored (d : bool) arrivals w :
  Forall (fun mf => exists n, merged_set d arrivals !! n = Some mf)
    (drop (length (w_encoded w))
       (w_encoded (Merge_arrivals Encode d arrivals w).2)).
Proof.
  rewrite Merge_arrivals_run. cbn zeta. cbn [snd w_encoded].
  rewrite drop_app_length.
  rewrite (prefix_take_length _ _ (emit_prefix Encode (w_out w)
             ((fun n => merged_set d arrivals !!! n)
                <$> sorted_names (merged_set d arrivals)))).
  apply Forall_take, Forall_fmap, Forall_forall. intros n Hn. cbn.
  exists n. by apply lookup_total_sorted_names.
Qed.

Lemma tasks_length (h : Handler) (net : nat -> string -> FetchOutcome Sample) :
  length (tasks h net) = length (Exporters h).
Proof. apply length_imap. Qed.

End run_more.

(** X11.  When every task ends, whatever the order, the log gains one entry
    for each source that failed, then at most one entry of the encoder. *)
Theorem every_failed_source_is_logged_once {Sample W}
    (Encode : W -> MetricFamily Sample -> W * option string)
    (h : Handler) (net : nat -> string -> FetchOutcome Sample)
    (sched : list nat) (w : World Sample W) :
  sched ≡ₚ seq 0 (length (Exporters h)) ->
  exists errs enc,
    w_log (Merge Encode h net sched w).2 = w_log w ++ errs ++ enc
    /\ errs ≡ₚ fetch_errors (tasks h net)
    /\ (enc = [] \/ exists e, enc = [LogEncodeFailed e]).
Proof.
  intros Hs. unfold Merge. rewrite Merge_arrivals_run. cbn zeta. cbn [snd w_log].
  eexists _, _. split; [done|]. split.
  - apply fetch_errors_perm, arrivals_of_schedule. by rewrite tasks_length.
  - destruct (emit _ _ _).2; cbn; eauto.
Qed.

(** Both sources down, the second ending first. *)
Lemma every_failed_source_is_logged_once_witness :
  exists errs enc,
    w_log (Merge test_Encode (test_handler 10 true) down_net [1; 0]%nat
             (test_world 9)).2 = [] ++ errs ++ enc
    /\ errs ≡ₚ fetch_errors (tasks (test_handler 10 true) down_net)
    /\ (enc = [] \/ exists e, enc = [LogEncodeFailed e]).
Proof.
  apply (every_failed_source_is_logged_once test_Encode (test_handler 10 true)
           down_net [1; 0]%nat (test_world 9)).
  apply perm_swap.
Defined.

(** X12.  Whatever the interleaving of the goroutines, when the last has
    ended [responses] holds the 1024 [nil] entries followed by the part of
    every successful source, each once; the writer has not been touched and
    the log has gained the errors of the failed sources. *)
Theorem fan_out_collects_every_part_once {Sample W}
    (ts : list (string * FetchOutcome Sample))
    (rs' : list (option (gmap string (MetricFamily Sample))))
    (w w' : World Sample W) :
  rtc (fan_step ts)
    (mkFanState (list_to_set (seq 0 (length ts))) (replicate 1024 None) w)
    (mkFanState ∅ rs' w') ->
  exists parts errs,
    rs' = replicate 1024 None ++ (Some <$> parts)
    /\ parts ≡ₚ parts_of ts
    /\ w_out w' = w_out w /\ w_encoded w' = w_encoded w
    /\ w_log w' = w_log w ++ errs /\ errs ≡ₚ fetch_errors ts.
Proof.
  intros (sched & Hs & Hrun)%fan_steps_iff_schedule.
  rewrite fanout_run in Hrun. injection Hrun as <- <-.
  eexists _, _. split; [done|].
  pose proof (arrivals_of_schedule ts sched Hs) as Ha.
  split; [by apply parts_of_perm|]. split; [done|]. split; [done|].
  split; [done|]. by apply fetch_errors_perm.
Qed.

(** The two sources of [test_net], the second ending first. *)
Lemma fan_out_collects_every_part_once_witness :
  exists parts errs,
    (fanout (replicate 1024 None)
       (arrivals_of [1; 0]%nat (tasks (test_handler 10 true) test_net))
       (test_world 9)).1 = replicate 1024 None ++ (Some <$> parts)
    /\ parts ≡ₚ parts_of (tasks (test_handler 10 true) test_net)
    /\ w_out (fanout (replicate 1024 None)
       (arrivals_of [1; 0]%nat (tasks (test_handler 10 true) test_net))
       (test_world 9)).2 = w_out (test_world 9)
    /\ w_encoded (fanout (replicate 1024 None)
       (arrivals_of [1; 0]%nat (tasks (test_handler 10 true) test_net))
       (test_world 9)).2 = w_encoded (test_world 9)
    /\ w_log (fanout (replicate 1024 None)
       (arrivals_of [1; 0]%nat (tasks (test_handler 10 true) test_net))
       (test_world 9)).2 = w_log (test_world 9) ++ errs
    /\ errs ≡ₚ fetch_errors (tasks (test_handler 10 true) test_net).
Proof.
  apply (fan_out_collects_every_part_once
           (tasks (test_handler 10 true) test_net)).
  apply (sched_fan_steps (tasks (test_handler 10 true) test_net) [1; 0]%nat).
  - repeat constructor; set_solver.
  - intros i. cbn. set_solver.
  - repeat constructor; by eexists.
Defined.

(** X13.  With deduplication on, no family that [Merge] hands to the encoder
    has two series of the same signature. *)
Theorem deduplicated_output_has_distinct_signatures {Sample W}
    (Encode : W -> MetricFamily Sample -> W * option string)
    (arrivals : list (string * FetchOutcome Sample)) (w : World Sample W) :
  Forall (fun mf => NoDup (signature_of <$> mf_Metric mf))
    (drop (length (w_encoded w))
       (w_encoded (Merge_arrivals Encode true arrivals w).2)).
Proof.
  eapply Forall_impl; [apply new_encoded_are_stored|].
  intros mf (n & Hn). cbn beta in Hn.
  rewrite merged_set_Merger, deduplicate_all_lookup in Hn.
  destruct (Merger (parts_of arrivals) !! n) as [f|]; [|done].
  injection Hn as <-. rewrite deduplicateMetricFamily_Metric.
  apply first_occurrences_NoDup.
Qed.

(** X14.  When every family of every parsed payload has a series, as the
    text parser sees to, every family that [Merge] hands to the encoder has
    one, with or without deduplication. *)
Theorem encoded_families_are_never_empty {Sample W}
    (Encode : W -> MetricFamily Sample -> W * option string) (d : bool)
    (arrivals : list (string * FetchOutcome Sample)) (w : World Sample W) :
  Forall (fun part : gmap string (MetricFamily Sample) =>
            forall n f, part !! n = Some f -> mf_Metric f <> [])
    (parts_of arrivals) ->
  Forall (fun mf => mf_Metric mf <> [])
    (drop (length (w_encoded w))
       (w_encoded (Merge_arrivals Encode d arrivals w).2)).
Proof.
  intros Hparts. eapply Forall_impl; [apply new_encoded_are_stored|].
  intros mf (n & Hn). cbn beta in Hn.
  assert (forall f, Merger (parts_of arrivals) !! n = Some f -> mf_Metric f <> [])
    as Hmerged.
  { intros f. rewrite Merger_lookup. unfold families_named.
    destruct (omap (fun p : gmap string (MetricFamily Sample) => p !! n)
                (parts_of arrivals)) as [|f0 fs] eqn:Hfams; [done|].
    intros [= <-]. cbn.
    assert (f0 ∈ omap (fun p : gmap string (MetricFamily Sample) => p !! n)
              (parts_of arrivals)) as Hf0 by (rewrite Hfams; left).
    apply list_elem_of_omap in Hf0 as (part & Hpart & Hf0).
    rewrite Forall_forall in Hparts. pose proof (Hparts _ Hpart _ _ Hf0) as Hne.
    by destruct (mf_Metric f0). }
  rewrite merged_set_Merger in Hn. destruct d; [|by apply Hmerged].
  rewrite deduplicate_all_lookup in Hn.
  destruct (Merger (parts_of arrivals) !! n) as [f|] eqn:Hf; [|done].
  injection Hn as <-. rewrite deduplicateMetricFamily_Metric.
  pose proof (Hmerged f eq_refl) as Hne.
  destruct (mf_Metric f) as [|m ms]; [done|]. by rewrite first_occurrences_cons.
Qed.

(** The two sources of [test_net], a writer with room for one block. *)
Lemma encoded_families_are_never_empty_witness :
  Forall (fun mf : MetricFamily Z => mf_Metric mf <> [])
    (drop (length (w_encoded (test_world 1)))
       (w_encoded (Merge_arrivals test_Encode true
          (arrivals_of [0; 1]%nat (tasks (test_handler 10 true) test_net))
          (test_world 1)).2)).
Proof.
  apply (encoded_families_are_never_empty test_Encode true
           (arrivals_of [0; 1]%nat (tasks (test_handler 10 true) test_net))
           (test_world 1)).
  repeat constructor.
  - intros n f. rewrite lookup_singleton. case_decide; [|done].
    by intros [= <-].
  - intros n f. rewrite lookup_insert. case_decide; [by intros [= <-]|].
    rewrite lookup_singleton. case_decide; [|done]. by intros [= <-].
Defined.

(** X15.  [Merge] as the composition of its components: the parts of the
    failed sources are left out, the others are merged in the order of their
    arrival, the series of each family are cut down to the first occurrences
    when deduplication is on, and the families are encoded in the order of
    their names until a write is rejected; the log gains the fetch errors,
    then the encoder's. *)
Theorem Merge_is_the_composition_of_its_components {Sample W}
    (Encode : W -> MetricFamily Sample -> W * option string)
    (h : Handler) (net : nat -> string -> FetchOutcome Sample)
    (sched : list nat) (w : World Sample W) :
  let arrivals := arrivals_of sched (tasks h net) in
  let merged := Merger (parts_of arrivals) in
  let mfs :=
    if Deduplicate h
    then (fun mf => set_Metric mf (first_occurrences (mf_Metric mf))) <$> merged
    else merged in
  let r := emit Encode (w_out w) ((fun n => mfs !!! n) <$> sorted_names mfs) in
  Merge Encode h net sched w =
  (tt, {| w_out := r.1.1; w_encoded := w_encoded w ++ r.1.2;
          w_log := w_log w ++ fetch_errors arrivals ++ encode_error r.2 |}).
Proof.
  cbn zeta. unfold Merge. rewrite Merge_arrivals_run. cbn zeta.
  rewrite merged_set_Merger.
  assert (deduplicate_all (Merger (parts_of (arrivals_of sched (tasks h net))))
          = (fun mf => set_Metric mf (first_occurrences (mf_Metric mf)))
              <$> Merger (parts_of (arrivals_of sched (tasks h net)))) as Hd.
  { rewrite deduplicate_all_fmap. apply map_fmap_ext.
    intros n mf _. apply deduplicateMetricFamily_eq. }
  destruct (Deduplicate h); [by rewrite Hd|done].
Qed.

(** X16.  A run ends in one of two ways, and what [Encode] returns decides
    which.  Either [Encode] accepted the write of every family of the set:
    then all of them were encoded, in name order, the writer is as these
    writes left it and the log gained the fetch errors only.  Or the write of
    the family at some index [k] of that order was the first that [Encode]
    rejected: then the families up to that one were encoded and no other, the
    writer is as the rejected write left it, and the rejection is the last
    entry of the log. *)
Theorem run_ends_in_one_of_two_ways {Sample W}
    (Encode : W -> MetricFamily Sample -> W * option string) (d : bool)
    (arrivals : list (string * FetchOutcome Sample)) (w : World Sample W) :
  let mfs := merged_set d arrivals in
  let fams := (fun n => mfs !!! n) <$> sorted_names mfs in
  let r := (Merge_arrivals Encode d arrivals w).2 in
  ((forall i mf, fams !! i = Some mf ->
      (Encode (writer_after Encode (w_out w) fams i) mf).2 = None)
   /\ w_out r = writer_after Encode (w_out w) fams (length fams)
   /\ w_encoded r = w_encoded w ++ fams
   /\ w_log r = w_log w ++ fetch_errors arrivals)
  \/ (exists (k : nat) mf out' e,
        fams !! k = Some mf
        /\ (forall i mf', (i < k)%nat -> fams !! i = Some mf' ->
              (Encode (writer_after Encode (w_out w) fams i) mf').2 = None)
        /\ Encode (writer_after Encode (w_out w) fams k) mf = (out', Some e)
        /\ w_out r = out'
        /\ w_encoded r = w_encoded w ++ take (S k) fams
        /\ w_log r = w_log w ++ fetch_errors arrivals ++ [LogEncodeFailed e]).
Proof.
  cbn zeta. rewrite Merge_arrivals_run. cbn zeta. cbn [snd w_out w_encoded w_log].
  destruct (emit_accepted_or_rejected Encode (w_out w)
              ((fun n => merged_set d arrivals !!! n)
                 <$> sorted_names (merged_set d arrivals)))
    as [Hacc|(k & mf & e & Hk & Hacc & Hrej)].
  - left. rewrite (emit_accepted Encode _ _ Hacc). cbn.
    by rewrite app_nil_r.
  - right.
    destruct (Encode (writer_after Encode (w_out w)
                ((fun n => merged_set d arrivals !!! n)
                   <$> sorted_names (merged_set d arrivals)) k) mf)
      as [out' err] eqn:Hmf.
    cbn in Hrej. subst err. exists k, mf, out', e.
    by rewrite (emit_rejected Encode _ _ _ _ _ _ Hk Hacc Hmf).
Qed.

Section chain_props.
Context {Sample : Type}.
Implicit Types (ls : list (list (Metric Sample))).
Implicit Types (fams : list (MetricFamily Sample)).
Implicit Types (parts : list (gmap string (MetricFamily Sample))).

(** Cutting every list down to its first occurrences beforehand does not
    change the first occurrences of the concatenation. *)
Lemma first_occurrences_concat ls :
  first_occurrences (concat (first_occurrences <$> ls))
  = first_occurrences (concat ls).
Proof.
  induction ls as [|l ls IH]; [done|].
  rewrite fmap_cons, !concat_cons.
  rewrite !first_occurrences_app, IH.
  rewrite (first_occurrences_id (first_occurrences l))
    by apply first_occurrences_NoDup.
  f_equal. apply list_filter_iff. intros m.
  by rewrite first_occurrences_signatures.
Qed.

Lemma families_named_deduplicated n parts :
  families_named n (deduplicate_all <$> parts)
  = deduplicateMetricFamily <$> families_named n parts.
Proof.
  unfold families_named. induction parts as [|part parts IH]; [done|].
  cbn. rewrite deduplicate_all_lookup, IH. by destruct (part !! n).
Qed.

End chain_props.

(** X17.  Deduplicating mergers chain: when every part was deduplicated
    before it is merged, as the output of another deduplicating merger is,
    the deduplicated merge is the one of the parts as they were. *)
Theorem deduplicated_parts_merge_alike {Sample}
    (parts : list (gmap string (MetricFamily Sample))) :
  deduplicate_all (merge_responses (Some <$> (deduplicate_all <$> parts)))
  = deduplicate_all (merge_responses (Some <$> parts)).
Proof.
  rewrite <- !Merger_merge_responses. apply map_eq. intros n.
  rewrite !deduplicate_all_lookup, !Merger_lookup, families_named_deduplicated.
  destruct (families_named n parts) as [|f fs]; [done|]. cbn. f_equal.
  rewrite !deduplicateMetricFamily_eq. cbn [mf_Metric set_Metric].
  rewrite !set_Metric_set_Metric. f_equal.
  change (mf_Metric f ++ concat (mf_Metric <$> fs))
    with (concat (mf_Metric <$> (f :: fs))).
  rewrite <- (first_occurrences_concat (mf_Metric <$> (f :: fs))).
  f_equal. rewrite !fmap_cons, concat_cons.
  f_equal; [apply dedup_loop|].
  f_equal. rewrite <- !list_fmap_compose.
  apply list_fmap_ext. intros i g _. apply deduplicateMetricFamily_Metric.
Qed.

(** X18.  When every parsed payload stores its families under their names,
    as the text parser does, the names of the families that [Merge] hands to
    the encoder are strictly increasing: no name is written twice. *)
Theorem encoded_names_are_strictly_increasing {Sample W}
    (Encode : W -> MetricFamily Sample -> W * option string) (d : bool)
    (arrivals : list (string * FetchOutcome Sample)) (w : World Sample W) :
  Forall well_keyed (parts_of arrivals) ->
  StronglySorted string_lt
    (MetricFamily_GetName <$>
       drop (length (w_encoded w))
         (w_encoded (Merge_arrivals Encode d arrivals w).2)).
Proof.
  intros Hk. apply (merged_set_well_keyed d) in Hk.
  rewrite Merge_arrivals_run. cbn zeta. cbn [snd w_encoded].
  rewrite drop_app_length.
  rewrite (prefix_take_length _ _ (emit_prefix Encode (w_out w)
             ((fun n => merged_set d arrivals !!! n)
                <$> sorted_names (merged_set d arrivals)))).
  rewrite <- !fmap_take. rewrite well_keyed_names; [|done|].
  - apply StronglySorted_take, sorted_names_strict.
  - intros n Hn%elem_of_take. destruct Hn as (i & Hi & _).
    apply lookup_total_sorted_names. by eapply list_elem_of_lookup_2.
Qed.

(** The two sources of [test_net]. *)
Lemma encoded_names_are_strictly_increasing_witness :
  StronglySorted string_lt
    (MetricFamily_GetName <$>
       drop (length (w_encoded (test_world 9)))
         (w_encoded (Merge_arrivals test_Encode false
            (arrivals_of [1; 0]%nat (tasks (test_handler 10 false) test_net))
            (test_world 9)).2)).
Proof.
  apply (encoded_names_are_strictly_increasing test_Encode false
           (arrivals_of [1; 0]%nat (tasks (test_handler 10 false) test_net))
           (test_world 9)).
  repeat constructor.
  - intros n f. rewrite lookup_insert. case_decide; [by intros [= <-]; subst|].
    rewrite lookup_singleton. case_decide; [|done]. by intros [= <-]; subst.
  - intros n f. rewrite lookup_singleton. case_decide; [|done].
    by intros [= <-]; subst.
Defined.

(** X19.  The timeout is computed in [int64] nanoseconds.  A number of
    seconds from 9223372037 to 18446744073 overflows to a negative duration
    and a number from -9223372036 to 0 gives one that is not positive: in
    both cases the HTTP client sets no deadline, and [Merge] blocks exactly
    when some source never answers. *)
Theorem timeout_out_of_range_sets_no_deadline {Sample W}
    (Encode : W -> MetricFamily Sample -> W * option string)
    (h : Handler) (remote : nat -> string -> Remote Sample)
    (sched : list nat) (w : World Sample W) :
  - 9223372036 <= ExportersHTTPTimeout h <= 0
  \/ 9223372037 <= ExportersHTTPTimeout h <= 18446744073 ->
  httpClientTimeout h <= 0
  /\ Client_deadline (httpClientTimeout h) = None
  /\ (Merge_timed Encode h remote sched w = None <->
      exists i u, Exporters h !! i = Some u /\ remote i u = Hangs).
Proof.
  intros Hrange.
  assert (httpClientTimeout h <= 0) as Hd.
  { unfold httpClientTimeout, wrap64, time_Second. destruct Hrange as [Hr|Hr].
    - rewrite Z.mod_small; lia.
    - replace (1000000000 * ExportersHTTPTimeout h + 2 ^ 63)
        with ((1000000000 * ExportersHTTPTimeout h + 2 ^ 63 - 2 ^ 64) + 1 * 2 ^ 64)
        by lia.
      rewrite Z_mod_plus_full, Z.mod_small; lia. }
  split; [done|]. split; [by apply Client_deadline_nonpos|].
  rewrite Merge_timed_None.
  split; intros (i & u & Hu & Hr); exists i, u; split; try done.
  - by apply (fetch_without_deadline (httpClientTimeout h)).
  - by apply (fetch_without_deadline (httpClientTimeout h)).
Qed.

(** Three hundred years of timeout, and a source that never answers. *)
Lemma timeout_out_of_range_sets_no_deadline_witness :
  httpClientTimeout (test_handler 9467280000 false) <= 0
  /\ Client_deadline (httpClientTimeout (test_handler 9467280000 false)) = None
  /\ (Merge_timed test_Encode (test_handler 9467280000 false)
        (fun _ _ => Hangs) [0; 1]%nat (test_world 9) = None <->
      exists i u, Exporters (test_handler 9467280000 false) !! i = Some u
                  /\ (fun _ _ => @Hangs Z) i u = Hangs).
Proof.
  apply (timeout_out_of_range_sets_no_deadline test_Encode
           (test_handler 9467280000 false) (fun _ _ => Hangs)
           [0; 1]%nat (test_world 9)).
  right. cbn. lia.
Defined.
